(** * Network-on-chip benchmark: routing-table synthesis and mesh simulation

    A shallow embedding of [generate_table.py] (static XY routing table with
    shortcut overrides) and of the core of [dashboard.py] (mesh construction,
    small-world augmentation, workload generation, simulation), with the
    properties of the specification stated and proved over it.

    Python integers are [Z]; [%] and [//] with a positive divisor are
    [Z.modulo] and [Z.div] (both floor).  Python lists are [list]; a [dict]
    iterated with [.items()] is an association list in insertion order. *)

From Stdlib Require Import String ZArith QArith List Bool Lia FinFun.
Import ListNotations.
Local Open Scope Z_scope.

(** ** Shared list vocabulary *)

(** [range(n)] of Python: [0, 1, ..., n-1], empty when [n <= 0]. *)
Definition range (n : Z) : list Z := map Z.of_nat (seq 0 (Z.to_nat n)).

(** [xs[i]] for a list of integers, with a default where Python raises. *)
Definition nthZ {A} (i : Z) (xs : list A) (d : A) : A := nth (Z.to_nat i) xs d.

(** ** generate_table.py *)

Module Table.

(** [N, E, S, WDIR, L = 0, 1, 2, 3, 4] *)
Definition N : Z := 0.
Definition E : Z := 1.
Definition S : Z := 2.
Definition WDIR : Z := 3.
Definition L : Z := 4.

(** The shortcut dictionary: keys are ordered pairs of node indices, values
    are port numbers; the list keeps the declaration (iteration) order. *)
Definition ShortcutMap := list ((Z * Z) * Z).

(** [W, H = 8, 4] and the configured [shortcut_ports]. *)
Definition W : Z := 8.
Definition H : Z := 4.
Definition shortcut_ports : ShortcutMap :=
  [ ((0, 31), 5); ((7, 24), 6); ((12, 20), 7); ((4, 28), 8) ].

(** The functions of the script read the globals [W], [H] and
    [shortcut_ports]; here they are the variables of a section, so that the
    properties are stated for every mesh size and every map, and the script
    itself is the instance at the configured values. *)
Section Synth.

Variable w h : Z.
Variable ports : ShortcutMap.

(** [def id2coord(i): return (i % W, i // W)] *)
Definition id2coord (i : Z) : Z * Z := (i mod w, i / w).

(** [xy_next_hop(src, dst)] *)
Definition xy_next_hop (src dst : Z) : Z :=
  let '(sx, sy) := id2coord src in
  let '(dx, dy) := id2coord dst in
  if src =? dst then L
  else if dx >? sx then E
  else if dx <? sx then WDIR
  else if dy >? sy then S
  else N.

(** The inner [for (a, b), port in shortcut_ports.items()] loop with its
    [break]: the port of the first entry matching [(s, d)] in either
    orientation.  [Some port] is the exit with [assigned = True] (the port
    has been appended), [None] the exit with [assigned = False]. *)
Fixpoint scan_shortcuts (items : ShortcutMap) (s d : Z) : option Z :=
  match items with
  | [] => None
  | ((a, b), port) :: rest =>
      if ((s =? a) && (d =? b)) || ((s =? b) && (d =? a)) then Some port
      else scan_shortcuts rest s d
  end.

(** How a cell was produced: by the shortcut loop, or by the call of
    [xy_next_hop] under [if not assigned]. *)
Inductive decision : Type :=
  | ByShortcut (port : Z)
  | ByXY (port : Z).

Definition port_of (c : decision) : Z :=
  match c with ByShortcut p => p | ByXY p => p end.

Definition uses_xy (c : decision) : bool :=
  match c with ByShortcut _ => false | ByXY _ => true end.

(** The body of the loop over [d]: what is appended to [row]. *)
Definition cell_decision (s d : Z) : decision :=
  match scan_shortcuts ports s d with
  | Some port => ByShortcut port
  | None => ByXY (xy_next_hop s d)
  end.

Definition cell (s d : Z) : Z := port_of (cell_decision s d).

(** [for d in range(W*H)]: one row of the table. *)
Definition table_row (s : Z) : list Z := map (cell s) (range (w * h)).

(** [for s in range(W*H)]: the rows, in the order they are printed. *)
Definition routing_table : list (list Z) := map table_row (range (w * h)).

(** One step of a packet that follows the port it is given, on node
    indices: East and West change x by one (the index by one), South and
    North change y by one (the index by a full row); Local and shortcut
    ports do not move along the grid. *)
Definition move (pos port : Z) : Z :=
  if port =? E then pos + 1
  else if port =? WDIR then pos - 1
  else if port =? S then pos + w
  else if port =? N then pos - w
  else pos.

(** The same step on grid coordinates [(x, y)]. *)
Definition step_coord (c : Z * Z) (port : Z) : Z * Z :=
  if port =? E then (fst c + 1, snd c)
  else if port =? WDIR then (fst c - 1, snd c)
  else if port =? S then (fst c, snd c + 1)
  else if port =? N then (fst c, snd c - 1)
  else c.

(** [n] consecutive next-hop decisions toward [dst], starting at [pos]. *)
Fixpoint walk (n : nat) (pos dst : Z) : Z :=
  match n with
  | O => pos
  | Datatypes.S k => walk k (move pos (xy_next_hop pos dst)) dst
  end.

(** Follow the decisions until [Local] is returned and count the steps;
    [None] when [fuel] decisions were not enough. *)
Fixpoint hops_to_local (fuel : nat) (pos dst : Z) : option Z :=
  if xy_next_hop pos dst =? L then Some 0
  else match fuel with
       | O => None
       | Datatypes.S k =>
           option_map Z.succ
             (hops_to_local k (move pos (xy_next_hop pos dst)) dst)
       end.

(** [|dx| + |dy|] between the grid positions of two indices. *)
Definition grid_distance (src dst : Z) : Z :=
  let '(sx, sy) := id2coord src in
  let '(dx, dy) := id2coord dst in
  Z.abs (dx - sx) + Z.abs (dy - sy).

End Synth.

(** The table the script prints. *)
Definition printed_table : list (list Z) := routing_table W H shortcut_ports.

(** [table[s][d]] *)
Definition entry (table : list (list Z)) (s d : Z) : Z :=
  nthZ d (nthZ s table []) 0.

(** An index of a node of the [w] x [h] mesh. *)
Definition in_grid (w h i : Z) : Prop := 0 <= i < w * h.

(** Two keys that name the same unordered pair of nodes. *)
Definition same_pair (k1 k2 : Z * Z) : bool :=
  ((fst k1 =? fst k2) && (snd k1 =? snd k2))
  || ((fst k1 =? snd k2) && (snd k1 =? fst k2)).

(** The dictionary is a mapping on unordered pairs: entries whose keys name
    the same pair carry the same port. *)
Definition one_port_per_pair (ports : ShortcutMap) : bool :=
  forallb (fun e1 =>
    forallb (fun e2 => implb (same_pair (fst e1) (fst e2)) (snd e1 =? snd e2))
            ports) ports.

(** No entry of the dictionary pairs node [i] with itself. *)
Definition no_self_pair (ports : ShortcutMap) (i : Z) : bool :=
  forallb (fun e => negb ((fst (fst e) =? i) && (snd (fst e) =? i))) ports.

(** The port of the way back: East and West swap, South and North swap. *)
Definition opposite (port : Z) : Z :=
  if port =? E then WDIR
  else if port =? WDIR then E
  else if port =? S then N
  else if port =? N then S
  else port.

(** A direction along a column. *)
Definition vertical (port : Z) : bool := (port =? S) || (port =? N).

End Table.

(** ** dashboard.py: graphs (the part of networkx the program uses) *)

Module Dashboard.

(** [LATENCY_PER_HOP_STANDARD = 5], [LATENCY_PER_HOP_OPTIMIZED = 3] *)
Definition LATENCY_PER_HOP_STANDARD : Z := 5.
Definition LATENCY_PER_HOP_OPTIMIZED : Z := 3.

(** A node of [nx.grid_2d_graph] is the tuple [(row, col)]. *)
Definition Node : Type := Z * Z.

Definition node_eqb (u v : Node) : bool :=
  (fst u =? fst v) && (snd u =? snd v).

(** An undirected [nx.Graph]: its nodes in insertion order and its edges,
    each stored once, in insertion order. *)
Record Graph : Type := mkGraph {
  nodes : list Node;
  edges : list (Node * Node)
}.

Definition empty_graph : Graph := mkGraph [] [].

Definition has_node (g : Graph) (u : Node) : bool :=
  existsb (node_eqb u) (nodes g).

(** Whether a stored edge joins [u] and [v], in either orientation. *)
Definition joins (u v : Node) (e : Node * Node) : bool :=
  (node_eqb (fst e) u && node_eqb (snd e) v)
  || (node_eqb (fst e) v && node_eqb (snd e) u).

(** [G.has_edge(u, v)] *)
Definition has_edge (g : Graph) (u v : Node) : bool :=
  existsb (joins u v) (edges g).

Definition add_node (g : Graph) (u : Node) : Graph :=
  if has_node g u then g else mkGraph (nodes g ++ [u]) (edges g).

(** [G.add_edge(u, v)]: missing endpoints become nodes, and an edge that is
    already there is not stored twice. *)
Definition add_edge (g : Graph) (u v : Node) : Graph :=
  let g2 := add_node (add_node g u) v in
  if has_edge g2 u v then g2 else mkGraph (nodes g2) (edges g2 ++ [(u, v)]).

(** [abs(u[0] - v[0]) + abs(u[1] - v[1])] *)
Definition manhattan (u v : Node) : Z :=
  Z.abs (fst u - fst v) + Z.abs (snd u - snd v).

(** [pairwise(xs)] of networkx: consecutive elements, [(x0, x1), (x1, x2), ...]. *)
Fixpoint pairwise {A} (xs : list A) : list (A * A) :=
  match xs with
  | x :: ((y :: _) as rest) => (x, y) :: pairwise rest
  | _ => []
  end.

(** [nx.grid_2d_graph(m, n)]: nodes [(i, j)] for [i] in [range(m)] and [j] in
    [range(n)]; then the edges [((i, j), (pi, j))] for consecutive rows
    [(pi, i)] and every column [j], then the edges [((i, j), (i, pj))] for
    every row [i] and consecutive columns [(pj, j)]. *)
Definition grid_nodes (m n : Z) : list Node :=
  flat_map (fun i => map (fun j => (i, j)) (range n)) (range m).

Definition grid_row_edges (m n : Z) : list (Node * Node) :=
  flat_map (fun r => map (fun j => ((snd r, j), (fst r, j))) (range n))
           (pairwise (range m)).

Definition grid_col_edges (m n : Z) : list (Node * Node) :=
  flat_map (fun i => map (fun c => ((i, snd c), (i, fst c))) (pairwise (range n)))
           (range m).

Definition grid_2d_graph (m n : Z) : Graph :=
  mkGraph (grid_nodes m n) (grid_row_edges m n ++ grid_col_edges m n).

(** [create_mesh_topology(rows, cols)] *)
Definition create_mesh_topology (rows cols : Z) : Graph :=
  grid_2d_graph rows cols.

(** Every unordered pair of positions of a list, once. *)
Fixpoint all_pairs {A} (xs : list A) : list (A * A) :=
  match xs with
  | [] => []
  | x :: rest => map (pair x) rest ++ all_pairs rest
  end.

(** [nx.non_edges(G)]: each unordered pair of distinct nodes that no edge
    joins, once. *)
Definition non_edges (g : Graph) : list (Node * Node) :=
  filter (fun p => negb (has_edge g (fst p) (snd p))) (all_pairs (nodes g)).

(** The pairs [add_small_world_links] may still accept: no edge joins them
    and they are more than one grid step apart. *)
Definition eligible (g : Graph) (u v : Node) : bool :=
  negb (has_edge g u v) && (manhattan u v >? 1).

Definition eligible_pairs (g : Graph) : list (Node * Node) :=
  filter (fun p => eligible g (fst p) (snd p)) (all_pairs (nodes g)).

(** ** Exceptions and the random generator *)

Inductive exn : Type :=
  | ValueError          (* random.sample: sample larger than population *)
  | NodeNotFound        (* nx.shortest_path: an endpoint is not in the graph *)
  | NetworkXNoPath.     (* nx.shortest_path: the target is unreachable *)

(** The result of code that may raise. *)
Inductive result (A : Type) : Type :=
  | Ok (a : A)
  | Err (e : exn).
Arguments Ok {A} a.
Arguments Err {A} e.

(** The state of the process-wide generator of the [random] module, as the
    sequence of choices it will make: one entry per call of
    [random.sample(_, 2)], giving the position chosen first and the position
    chosen next among the remaining elements (both reduced modulo the number
    of candidates).  [random.seed] fixes this sequence. *)
Definition Draw : Type := (nat * nat)%type.
Definition Rng : Type := list Draw.

(** The result of code that draws: it returns, raises, or needs more
    choices than the given sequence holds. *)
Inductive outcome (A : Type) : Type :=
  | Returned (a : A)
  | Raised (e : exn)
  | Starved.
Arguments Returned {A} a.
Arguments Raised {A} e.
Arguments Starved {A}.

(** The list without its element at position [i]. *)
Fixpoint drop_nth {A} (i : nat) (xs : list A) : list A :=
  match xs, i with
  | [], _ => []
  | _ :: rest, O => rest
  | x :: rest, Datatypes.S k => x :: drop_nth k rest
  end.

(** The value of [random.sample(population, 2)] for one choice of the
    generator: two elements at distinct positions; [None] is the
    [ValueError] raised when the population has fewer than two elements. *)
Definition sample2 {A} (population : list A) (d : Draw) : option (A * A) :=
  match population with
  | x :: _ :: _ =>
      let n := length population in
      let i := (fst d mod n)%nat in
      let rest := drop_nth i population in
      let j := (snd d mod (n - 1))%nat in
      Some (nth i population x, nth j rest x)
  | _ => None
  end.

(** [random.sample(population, 2)] on the generator state. *)
Definition random_sample {A} (population : list A) (rng : Rng)
  : outcome ((A * A) * Rng) :=
  match rng with
  | [] => match population with
          | _ :: _ :: _ => Starved
          | _ => Raised ValueError
          end
  | d :: rng' => match sample2 population d with
                 | Some uv => Returned (uv, rng')
                 | None => Raised ValueError
                 end
  end.

(** ** Graph objects *)

(** [graph.copy()] makes a new object and [add_edge] changes an object in
    place, so graph objects live in a store and variables hold references. *)
Definition Ref : Type := nat.
Definition Store : Type := list Graph.

Definition deref (st : Store) (r : Ref) : Graph := nth r st empty_graph.

Fixpoint assign (st : Store) (r : Ref) (g : Graph) : Store :=
  match st, r with
  | [], _ => []
  | _ :: rest, O => g :: rest
  | x :: rest, Datatypes.S k => x :: assign rest k g
  end.

(** [graph.copy()]: a fresh object with the same nodes and edges. *)
Definition copy (st : Store) (r : Ref) : Store * Ref :=
  (st ++ [deref st r], length st).

(** ** add_small_world_links *)

(** The [while added_edges < num_shortcuts] loop.  [new_graph] is the
    reference held by the local variable; the accepted edge is added to the
    object it refers to. *)
Fixpoint links_loop (rng : Rng) (st : Store) (new_graph : Ref)
    (nodes : list Node) (added_edges num_shortcuts : Z) {struct rng}
  : outcome (Store * Rng) :=
  if added_edges <? num_shortcuts then
    if (length (non_edges (deref st new_graph)) =? 0)%nat then Returned (st, rng)
    else
      match rng with
      | [] => match random_sample nodes [] with
              | Raised e => Raised e
              | _ => Starved
              end
      | d :: rng' =>
          match sample2 nodes d with
          | None => Raised ValueError
          | Some (u, v) =>
              if negb (has_edge (deref st new_graph) u v) && (manhattan u v >? 1)
              then links_loop rng'
                     (assign st new_graph (add_edge (deref st new_graph) u v))
                     new_graph nodes (added_edges + 1) num_shortcuts
              else links_loop rng' st new_graph nodes added_edges num_shortcuts
          end
      end
  else Returned (st, rng).

(** [add_small_world_links(graph, num_shortcuts)]: the store after the call,
    the reference returned and the generator state left. *)
Definition add_small_world_links (rng : Rng) (st : Store) (graph : Ref)
    (num_shortcuts : Z) : outcome ((Store * Ref) * Rng) :=
  let '(st1, new_graph) := copy st graph in
  let nodes := nodes (deref st1 new_graph) in
  match links_loop rng st1 new_graph nodes 0 num_shortcuts with
  | Returned (st2, rng') => Returned ((st2, new_graph), rng')
  | Raised e => Raised e
  | Starved => Starved
  end.

(** The same loop on the value of the object that [new_graph] refers to. *)
Fixpoint links_on_value (rng : Rng) (g : Graph) (nodes : list Node)
    (added_edges num_shortcuts : Z) {struct rng} : outcome (Graph * Rng) :=
  if added_edges <? num_shortcuts then
    if (length (non_edges g) =? 0)%nat then Returned (g, rng)
    else
      match rng with
      | [] => match random_sample nodes [] with
              | Raised e => Raised e
              | _ => Starved
              end
      | d :: rng' =>
          match sample2 nodes d with
          | None => Raised ValueError
          | Some (u, v) =>
              if negb (has_edge g u v) && (manhattan u v >? 1)
              then links_on_value rng' (add_edge g u v) nodes
                     (added_edges + 1) num_shortcuts
              else links_on_value rng' g nodes added_edges num_shortcuts
          end
      end
  else Returned (g, rng).

(** Every pair of nodes within one grid step of each other is joined, as in
    a mesh and in every mesh with added links. *)
Definition mesh_like (g : Graph) : bool :=
  forallb (fun p => implb (manhattan (fst p) (snd p) <=? 1)
                          (has_edge g (fst p) (snd p)))
          (all_pairs (nodes g)).

(** The loop can still reach its end: either the graph is mesh-like, so
    that the guard of the loop sees every eligible pair, or as many eligible
    pairs are left as edges are still to be added. *)
Definition can_go_on (num_shortcuts : Z) (g : Graph) (added_edges : Z) : Prop :=
  mesh_like g = true
  \/ num_shortcuts - added_edges <= Z.of_nat (length (eligible_pairs g)).

(** ** Packets and workloads *)

Record Packet : Type := mkPacket {
  id : Z;
  source : Node;
  destination : Node;
  start_time : Z;
  end_time : Z;
  hop_count : Z
}.

(** [Packet.__init__] *)
Definition new_packet (packet_id : Z) (src dst : Node) (start : Z) : Packet :=
  mkPacket packet_id src dst start 0 0.

(** The [for i in range(num_packets)] loop of [generate_workload]. *)
Fixpoint workload_loop (idxs : list Z) (rng : Rng) (nodes : list Node)
    (workload : list Packet) {struct idxs} : outcome (list Packet * Rng) :=
  match idxs with
  | [] => Returned (workload, rng)
  | i :: rest =>
      match random_sample nodes rng with
      | Returned ((src, dst), rng') =>
          workload_loop rest rng' nodes
            (workload ++ [new_packet i src dst (i * 2)])
      | Raised e => Raised e
      | Starved => Starved
      end
  end.

(** [generate_workload(num_packets, nodes)] *)
Definition generate_workload (rng : Rng) (num_packets : Z) (nodes : list Node)
  : outcome (list Packet * Rng) :=
  workload_loop (range num_packets) rng nodes [].

(** ** Shortest paths (the part of [nx.shortest_path] the program uses) *)

Definition neighbors (g : Graph) (u : Node) : list Node :=
  filter (fun v => has_edge g u v) (nodes g).

Definition seen_in (seen : list Node) (v : Node) : bool :=
  existsb (node_eqb v) seen.

(** One level of the breadth-first search.  A frontier entry [(u, trail)]
    is a node with the way back to the source; each entry is extended by the
    neighbours of [u] that have not been seen yet. *)
Fixpoint expand (g : Graph) (frontier : list (Node * list Node))
    (seen : list Node) : list (Node * list Node) * list Node :=
  match frontier with
  | [] => ([], seen)
  | (u, trail) :: rest =>
      let fresh := filter (fun v => negb (seen_in seen v)) (neighbors g u) in
      let '(more, seen') := expand g rest (seen ++ fresh) in
      (map (fun v => (v, u :: trail)) fresh ++ more, seen')
  end.

Fixpoint bfs (fuel : nat) (g : Graph) (frontier : list (Node * list Node))
    (seen : list Node) (target : Node) : option (list Node) :=
  match find (fun p => node_eqb (fst p) target) frontier with
  | Some (u, trail) => Some (rev (u :: trail))
  | None =>
      match fuel with
      | O => None
      | Datatypes.S k =>
          match expand g frontier seen with
          | ([], _) => None
          | (next, seen') => bfs k g next seen' target
          end
      end
  end.

(** [nx.shortest_path(G, source=s, target=t)]: a path with the fewest edges,
    as the list of its nodes; [NodeNotFound] when an endpoint is not a node
    of [G], [NetworkXNoPath] when [t] cannot be reached. *)
Definition shortest_path (g : Graph) (s t : Node) : result (list Node) :=
  if negb (has_node g s) || negb (has_node g t) then Err NodeNotFound
  else match bfs (length (nodes g)) g [(s, [])] [s] t with
       | Some path => Ok path
       | None => Err NetworkXNoPath
       end.

(** Walks: [reach g s n v] when some walk of [n] edges leads from [s] to
    [v]. *)
Inductive reach (g : Graph) (s : Node) : nat -> Node -> Prop :=
  | reach_here : reach g s 0 s
  | reach_step (n : nat) (u v : Node) :
      reach g s n u -> has_edge g u v = true -> reach g s (Datatypes.S n) v.

(** A frontier entry [(u, trail)] is a walk read backwards: from [u] through
    [trail] to [s], each step along an edge. *)
Fixpoint walk_back (g : Graph) (s u : Node) (trail : list Node) : bool :=
  match trail with
  | [] => node_eqb u s
  | w :: rest => has_edge g w u && walk_back g s w rest
  end.

(** A list of nodes in which each node is joined to the next. *)
Fixpoint is_walk (g : Graph) (path : list Node) : bool :=
  match path with
  | u :: ((v :: _) as rest) => has_edge g u v && is_walk g rest
  | _ => true
  end.

(** ** simulate_network *)

(** One entry of [results]. *)
Record ResultRow : Type := mkRow {
  packet_id : Z;
  latency : Z;
  row_hop_count : Z
}.

(** The returned dictionary.  [/] of Python on two integers is the quotient
    as a (rounded) float; the model keeps the exact rational. *)
Record Summary : Type := mkSummary {
  topology_name : String.string;
  average_latency : Q;
  throughput_pps : Q
}.

(** The local variables the loop updates. *)
Record SimState : Type := mkSim {
  results : list ResultRow;
  simulation_end_time : Z;
  packets_delivered : Z
}.

(** The body of [for packet in workload]: the new values of the local
    variables and the packet object as the body leaves it. *)
Definition simulate_step (topology : Graph) (latency_per_hop : Z)
    (st : SimState) (packet : Packet) : result (SimState * Packet) :=
  match shortest_path topology (source packet) (destination packet) with
  | Ok path =>
      let hop_count := Z.of_nat (length path) - 1 in
      let packet_travel_time := hop_count * latency_per_hop in
      let end_time := start_time packet + packet_travel_time in
      Ok (mkSim (results st ++ [mkRow (id packet) packet_travel_time hop_count])
                (Z.max (simulation_end_time st) end_time)
                (packets_delivered st + 1),
          packet)
  | Err NetworkXNoPath => Ok (st, packet)
  | Err e => Err e
  end.

Fixpoint simulate_loop (topology : Graph) (latency_per_hop : Z)
    (st : SimState) (workload : list Packet)
  : result (SimState * list Packet) :=
  match workload with
  | [] => Ok (st, [])
  | packet :: rest =>
      match simulate_step topology latency_per_hop st packet with
      | Ok (st', packet') =>
          match simulate_loop topology latency_per_hop st' rest with
          | Ok (st'', rest') => Ok (st'', packet' :: rest')
          | Err e => Err e
          end
      | Err e => Err e
      end
  end.

(** [sum(r['latency'] for r in results)] *)
Definition sum_latency (rows : list ResultRow) : Z :=
  fold_left (fun acc r => acc + latency r) rows 0.

(** The two closing expressions and the returned dictionary. *)
Definition summarize (topology_name : String.string) (st : SimState) : Summary :=
  let average_latency :=
    match results st with
    | [] => 0%Q
    | _ => (inject_Z (sum_latency (results st))
            / inject_Z (Z.of_nat (length (results st))))%Q
    end in
  let throughput :=
    if simulation_end_time st >? 0
    then (inject_Z (packets_delivered st) / inject_Z (simulation_end_time st))%Q
    else 0%Q in
  mkSummary topology_name average_latency (throughput * inject_Z (10 ^ 9))%Q.

(** [simulate_network(topology, workload, latency_per_hop, topology_name)]:
    the returned pair [(summary, results)], and the packet objects of
    [workload] as they are after the call. *)
Definition simulate_network (topology : Graph) (workload : list Packet)
    (latency_per_hop : Z) (topology_name : String.string)
  : result ((Summary * list ResultRow) * list Packet) :=
  match simulate_loop topology latency_per_hop (mkSim [] 0 0) workload with
  | Ok (st, workload') => Ok ((summarize topology_name st, results st), workload')
  | Err e => Err e
  end.

(** ** run_simulation_for_size, without the plots *)

Record Run : Type := mkRun {
  mesh_topology : Graph;
  small_world_topology : Graph;
  run_workload : list Packet;
  all_summaries : list Summary
}.

Definition lift {A} (r : result A) : outcome A :=
  match r with Ok a => Returned a | Err e => Raised e end.

Definition bind {A B} (m : outcome A) (k : A -> outcome B) : outcome B :=
  match m with
  | Returned a => k a
  | Raised e => Raised e
  | Starved => Starved
  end.

Notation "x <- m ;; k" := (bind m (fun x => k))
  (at level 61, m at next level, right associativity).
Notation "' p <- m ;; k" := (bind m (fun x => let 'p := x in k))
  (at level 61, p pattern, m at next level, right associativity).

Definition run_simulation_for_size (rng : Rng) (rows cols : Z) : outcome Run :=
  let num_nodes := rows * cols in
  let num_packets_to_simulate := 250 * num_nodes in
  let num_small_world_shortcuts := num_nodes / 4 in
  let st0 : Store := [create_mesh_topology rows cols] in
  let mesh : Ref := 0%nat in
  '(st1, small_world, rng1) <-
     add_small_world_links rng st0 mesh num_small_world_shortcuts ;;
  '(workload, _) <-
     generate_workload rng1 num_packets_to_simulate (nodes (deref st1 mesh)) ;;
  '(summary1, _, workload1) <-
     lift (simulate_network (deref st1 mesh) workload
             LATENCY_PER_HOP_STANDARD "Regular Mesh"%string) ;;
  '(summary2, _, workload2) <-
     lift (simulate_network (deref st1 small_world) workload1
             LATENCY_PER_HOP_STANDARD "Small-World Mesh"%string) ;;
  '(summary3, _, workload3) <-
     lift (simulate_network (deref st1 small_world) workload2
             LATENCY_PER_HOP_OPTIMIZED "Small-World + Optimized Router"%string) ;;
  Returned (mkRun (deref st1 mesh) (deref st1 small_world) workload3
                  [summary1; summary2; summary3]).

(** ** Invariants of graph objects *)

(** What every [nx.Graph] satisfies: a node is stored once, the endpoints of
    an edge are nodes, and no two stored edges join the same pair of nodes. *)
Fixpoint distinct_nodes (xs : list Node) : bool :=
  match xs with
  | [] => true
  | x :: rest => negb (existsb (node_eqb x) rest) && distinct_nodes rest
  end.

Fixpoint distinct_edges (es : list (Node * Node)) : bool :=
  match es with
  | [] => true
  | e :: rest => negb (existsb (joins (fst e) (snd e)) rest) && distinct_edges rest
  end.

Definition well_formed (g : Graph) : bool :=
  distinct_nodes (nodes g)
  && forallb (fun e => has_node g (fst e) && has_node g (snd e)) (edges g)
  && distinct_edges (edges g).

(** What [generate_workload] makes of a packet over the nodes [ns]: its
    start time is twice its id, it has not travelled, and it goes from a
    node of [ns] to another one. *)
Definition fresh_packet (ns : list Node) (p : Packet) : Prop :=
  start_time p = id p * 2 /\ end_time p = 0 /\ hop_count p = 0
  /\ In (source p) ns /\ In (destination p) ns
  /\ (NoDup ns -> source p <> destination p).

(** ** Vocabulary of the specification *)

(** The hop count of a packet over a topology: the number of edges of the
    shortest path between its endpoints, when there is one. *)
Definition hops (topology : Graph) (p : Packet) : option Z :=
  match shortest_path topology (source p) (destination p) with
  | Ok path => Some (Z.of_nat (length path) - 1)
  | Err _ => None
  end.

(** The delivered packets of a workload, in workload order, each with its
    hop count. *)
Definition delivered (topology : Graph) (workload : list Packet)
  : list (Packet * Z) :=
  flat_map (fun p => match hops topology p with
                     | Some n => [(p, n)]
                     | None => []
                     end) workload.

(** The arithmetic mean of a list of integers, [0] for the empty list. *)
Definition mean (xs : list Z) : Q :=
  match xs with
  | [] => 0%Q
  | _ => (inject_Z (fold_left Z.add xs 0%Z) / inject_Z (Z.of_nat (length xs)))%Q
  end.


(** Every packet of the workload starts and ends at a node of the topology. *)
Definition endpoints_in (topology : Graph) (workload : list Packet) : bool :=
  forallb (fun p => has_node topology (source p)
                    && has_node topology (destination p)) workload.

(** The entry of [results] of a delivered packet. *)
Definition row_of (latency_per_hop : Z) (d : Packet * Z) : ResultRow :=
  mkRow (id (fst d)) (snd d * latency_per_hop) (snd d).

(** The local variables after the loop, from the delivered packets. *)
Definition after_loop (latency_per_hop : Z) (st : SimState)
    (ds : list (Packet * Z)) : SimState :=
  mkSim (results st ++ map (row_of latency_per_hop) ds)
        (fold_left (fun m d =>
                      Z.max m (start_time (fst d) + snd d * latency_per_hop))
                   ds (simulation_end_time st))
        (packets_delivered st + Z.of_nat (length ds)).

End Dashboard.

(** * Properties *)

(** ** Facts about [range] *)

Lemma range_length (n : Z) : length (range n) = Z.to_nat n.
Proof. unfold range. now rewrite length_map, length_seq. Qed.

Lemma in_range (n x : Z) : In x (range n) <-> 0 <= x < n.
Proof.
  unfold range. rewrite in_map_iff. split.
  - intros (k & <- & Hk). apply in_seq in Hk. lia.
  - intros Hx. exists (Z.to_nat x). split; [lia|]. apply in_seq. lia.
Qed.

Lemma nth_range (n i d : Z) : 0 <= i < n -> nthZ i (range n) d = i.
Proof.
  intros Hi. unfold nthZ, range.
  rewrite nth_indep with (d' := Z.of_nat 0) by (rewrite length_map, length_seq; lia).
  rewrite map_nth, seq_nth by lia. lia.
Qed.

Lemma range_NoDup (n : Z) : NoDup (range n).
Proof.
  unfold range. apply Injective_map_NoDup.
  - intros a b Hab. lia.
  - apply seq_NoDup.
Qed.

(** ** The routing table *)

Module TableFacts.
Import Table.

Section Grid.

Variable w : Z.
Hypothesis w_pos : 0 < w.

Lemma id2coord_of (x y : Z) : 0 <= x < w -> id2coord w (x + w * y) = (x, y).
Proof.
  intros Hx. unfold id2coord. f_equal.
  - symmetry. apply Z.mod_unique with (q := y); lia.
  - symmetry. apply Z.div_unique with (r := x); lia.
Qed.

Lemma id2coord_decompose (i : Z) :
  i = i mod w + w * (i / w) /\ 0 <= i mod w < w.
Proof.
  split.
  - pose proof (Z.div_mod i w). lia.
  - apply Z.mod_pos_bound. lia.
Qed.

Lemma xy_next_hop_local (s d : Z) : xy_next_hop w s d = L <-> s = d.
Proof.
  unfold xy_next_hop, id2coord, L, E, WDIR, S, N.
  destruct (Z.eqb_spec s d) as [->|Hne]; [tauto|].
  split; [|tauto].
  repeat match goal with
         | |- context [if ?c then _ else _] => destruct c
         end; discriminate.
Qed.

Lemma grid_distance_zero (s d : Z) : grid_distance w s d = 0 <-> s = d.
Proof.
  unfold grid_distance, id2coord. split.
  - intros Hd.
    destruct (id2coord_decompose s) as [Hs _].
    destruct (id2coord_decompose d) as [Hd' _]. 
    assert (d mod w = s mod w) by lia.
    assert (d / w = s / w) by lia.
    congruence.
  - intros ->. rewrite !Z.sub_diag. reflexivity.
Qed.

Lemma grid_distance_nonneg (s d : Z) : 0 <= grid_distance w s d.
Proof. unfold grid_distance, id2coord. lia. Qed.

(** A decision other than [Local] moves one step closer, and the new
    position lies between the old one and the destination, coordinate by
    coordinate. *)
Lemma move_closer (s d : Z) :
  s <> d ->
  let s' := move w s (xy_next_hop w s d) in
  grid_distance w s' d = grid_distance w s d - 1
  /\ (Z.min (s mod w) (d mod w) <= s' mod w <= Z.max (s mod w) (d mod w))
  /\ (Z.min (s / w) (d / w) <= s' / w <= Z.max (s / w) (d / w)).
Proof.
  intros Hne s'. subst s'.
  destruct (id2coord_decompose s) as [Hs Hsx].
  destruct (id2coord_decompose d) as [Hd Hdx].
  assert (Hc : forall x y, 0 <= x < w ->
            (x + w * y) mod w = x /\ (x + w * y) / w = y).
  { intros x y Hx. pose proof (id2coord_of x y Hx) as Hxy.
    unfold id2coord in Hxy. injection Hxy as Hm Hq. split; assumption. }
  unfold xy_next_hop, grid_distance, id2coord.
  destruct (Z.eqb_spec s d) as [|_]; [contradiction|].
  destruct (Z.gtb_spec (d mod w) (s mod w)) as [Hgt|Hngt].
  { unfold move, E. simpl.
    destruct (Hc (s mod w + 1) (s / w)) as [Hm Hq]; [lia|].
    replace (s + 1) with (s mod w + 1 + w * (s / w)) by lia.
    rewrite Hm, Hq. lia. }
  destruct (Z.ltb_spec (d mod w) (s mod w)) as [Hlt|Hnlt].
  { unfold move, WDIR, E. simpl.
    destruct (Hc (s mod w - 1) (s / w)) as [Hm Hq]; [lia|].
    replace (s - 1) with (s mod w - 1 + w * (s / w)) by lia.
    rewrite Hm, Hq. lia. }
  assert (Hx : d mod w = s mod w) by lia.
  assert (Hy : d / w <> s / w) by (intros Hy; apply Hne; congruence).
  destruct (Z.gtb_spec (d / w) (s / w)) as [Hgt|Hngt'].
  { unfold move, S, WDIR, E. simpl.
    destruct (Hc (s mod w) (s / w + 1)) as [Hm Hq]; [lia|].
    replace (s + w) with (s mod w + w * (s / w + 1)) by lia.
    rewrite Hm, Hq. lia. }
  { unfold move, N, S, WDIR, E. simpl.
    destruct (Hc (s mod w) (s / w - 1)) as [Hm Hq]; [lia|].
    replace (s - w) with (s mod w + w * (s / w - 1)) by lia.
    rewrite Hm, Hq. lia. }
Qed.

(** On the way to the destination a step on indices is the step on
    coordinates: the index never leaves its row through East or West. *)
Lemma move_is_step (s d : Z) :
  s <> d ->
  id2coord w (move w s (xy_next_hop w s d))
  = step_coord (id2coord w s) (xy_next_hop w s d).
Proof.
  intros Hne.
  destruct (id2coord_decompose s) as [Hs Hsx].
  destruct (id2coord_decompose d) as [Hd Hdx].
  remember (xy_next_hop w s d) as port eqn:Hport.
  unfold xy_next_hop, id2coord in Hport.
  change (id2coord w s) with (s mod w, s / w).
  destruct (Z.eqb_spec s d) as [|_]; [contradiction|].
  destruct (Z.gtb_spec (d mod w) (s mod w)) as [Hgt|Hngt].
  { subst port. unfold move, step_coord, E. simpl.
    replace (s + 1) with (s mod w + 1 + w * (s / w)) by lia.
    apply id2coord_of. lia. }
  destruct (Z.ltb_spec (d mod w) (s mod w)) as [Hlt|Hnlt].
  { subst port. unfold move, step_coord, WDIR, E. simpl.
    replace (s - 1) with (s mod w - 1 + w * (s / w)) by lia.
    apply id2coord_of. lia. }
  destruct (Z.gtb_spec (d / w) (s / w)) as [Hgt|Hngt'].
  { subst port. unfold move, step_coord, S, WDIR, E. simpl.
    replace (s + w) with (s mod w + w * (s / w + 1)) by lia.
    apply id2coord_of. lia. }
  { subst port. unfold move, step_coord, N, S, WDIR, E. simpl.
    replace (s - w) with (s mod w + w * (s / w - 1)) by lia.
    apply id2coord_of. lia. }
Qed.

Lemma walk_snoc (n : nat) : forall s d,
  walk w (Datatypes.S n) s d
  = move w (walk w n s d) (xy_next_hop w (walk w n s d) d).
Proof.
  induction n as [|n IH]; intros s d; [reflexivity|].
  change (walk w (Datatypes.S (Datatypes.S n)) s d)
    with (walk w (Datatypes.S n) (move w s (xy_next_hop w s d)) d).
  rewrite IH. reflexivity.
Qed.

Lemma walk_succ (n : nat) (s d : Z) :
  walk w (Datatypes.S n) s d = walk w n (move w s (xy_next_hop w s d)) d.
Proof. reflexivity. Qed.

(** The walk from any position, by induction on the distance left. *)
Lemma walk_by_distance (d : Z) (n : nat) : forall s,
  grid_distance w s d = Z.of_nat n ->
  walk w n s d = d
  /\ hops_to_local w n s d = Some (Z.of_nat n)
  /\ (forall k, (k < n)%nat -> xy_next_hop w (walk w k s d) d <> L)
  /\ (forall k, (k <= n)%nat ->
        (Z.min (s mod w) (d mod w) <= walk w k s d mod w <= Z.max (s mod w) (d mod w))
        /\ (Z.min (s / w) (d / w) <= walk w k s d / w <= Z.max (s / w) (d / w))).
Proof.
  induction n as [|n IH]; intros s Hdist.
  - assert (Hsd : s = d) by (apply grid_distance_zero; exact Hdist).
    subst s. split; [reflexivity|]. split; [|split].
    + simpl. destruct (xy_next_hop_local d d) as [_ Hl].
      rewrite Hl by reflexivity. reflexivity.
    + intros k Hk. lia.
    + intros k Hk. assert (k = 0%nat) as -> by lia. simpl. lia.
  - assert (Hne : s <> d).
    { intros ->. pose proof (proj2 (grid_distance_zero d d) eq_refl). lia. }
    destruct (move_closer s d Hne) as (Hstep & Hx & Hy).
    set (s' := move w s (xy_next_hop w s d)) in *.
    destruct (IH s') as (Hw & Hh & Hnl & Hin); [lia|].
    assert (Hnot : (xy_next_hop w s d =? L) = false).
    { apply Z.eqb_neq. intros Hl. exact (Hne (proj1 (xy_next_hop_local s d) Hl)). }
    split; [|split; [|split]].
    + rewrite walk_succ. exact Hw.
    + cbn [hops_to_local]. rewrite Hnot. fold s'. rewrite Hh. cbn. f_equal. lia.
    + intros [|k] Hk.
      * simpl. intros Hl. exact (Hne (proj1 (xy_next_hop_local s d) Hl)).
      * rewrite walk_succ. apply Hnl. lia.
    + intros [|k] Hk.
      * simpl. lia.
      * rewrite walk_succ. fold s'. destruct (Hin k) as [Hkx Hky]; [lia|]. lia.
Qed.

End Grid.

(** Reading the table at a valid position gives the cell computed there. *)
Lemma nthZ_map_range {A} (f : Z -> A) (n i : Z) (d : A) :
  0 <= i < n -> nthZ i (map f (range n)) d = f i.
Proof.
  intros Hi. unfold nthZ.
  rewrite nth_indep with (d' := f 0) by (rewrite length_map, range_length; lia).
  rewrite map_nth. f_equal. apply (nth_range n i 0 Hi).
Qed.

Lemma entry_routing_table (w h : Z) (ports : ShortcutMap) (s d : Z) :
  in_grid w h s -> in_grid w h d ->
  entry (routing_table w h ports) s d = cell w ports s d.
Proof.
  unfold in_grid, entry, routing_table. intros Hs Hd.
  rewrite nthZ_map_range by assumption.
  unfold table_row. now rewrite nthZ_map_range.
Qed.

Lemma same_pair_spec (s d a b : Z) :
  same_pair (s, d) (a, b) = true <-> (s = a /\ d = b) \/ (s = b /\ d = a).
Proof.
  unfold same_pair. simpl.
  rewrite orb_true_iff, !andb_true_iff, !Z.eqb_eq. tauto.
Qed.

Lemma scan_shortcuts_matches (ports : ShortcutMap) (s d : Z) :
  forall rest, scan_shortcuts rest s d =
    match find (fun e => same_pair (s, d) (fst e)) rest with
    | Some e => Some (snd e)
    | None => None
    end.
Proof.
  induction rest as [|[[a b] port] rest IH]; [reflexivity|].
  simpl. unfold same_pair at 1. simpl.
  destruct (((s =? a) && (d =? b)) || ((s =? b) && (d =? a))); [reflexivity|].
  exact IH.
Qed.

(** The loop stops at an entry naming the pair whenever there is one. *)
Lemma scan_shortcuts_found (ports : ShortcutMap) (s d a b p : Z) :
  one_port_per_pair ports = true ->
  In ((a, b), p) ports ->
  same_pair (s, d) (a, b) = true ->
  scan_shortcuts ports s d = Some p.
Proof.
  intros Hone Hin Hsame.
  rewrite (scan_shortcuts_matches ports).
  destruct (find _ ports) as [[[a' b'] q]|] eqn:Hfind.
  - apply find_some in Hfind. destruct Hfind as [Hin' Hsame']. simpl in *.
    unfold one_port_per_pair in Hone. rewrite forallb_forall in Hone.
    specialize (Hone _ Hin). rewrite forallb_forall in Hone.
    specialize (Hone _ Hin'). simpl in Hone.
    assert (Hab : same_pair (a, b) (a', b') = true).
    { apply same_pair_spec. apply same_pair_spec in Hsame, Hsame'.
      destruct Hsame as [[-> ->]|[-> ->]], Hsame' as [[H1 H2]|[H1 H2]];
        subst; tauto. }
    rewrite Hab in Hone. simpl in Hone. apply Z.eqb_eq in Hone. now subst.
  - exfalso. pose proof (find_none _ _ Hfind _ Hin) as Hno. simpl in Hno.
    congruence.
Qed.

Lemma scan_shortcuts_diagonal (ports : ShortcutMap) (i : Z) :
  no_self_pair ports i = true -> scan_shortcuts ports i i = None.
Proof.
  unfold no_self_pair. induction ports as [|[[a b] port] rest IH]; [reflexivity|].
  simpl. intros Hn. apply andb_true_iff in Hn. destruct Hn as [Hh Ht].
  rewrite negb_true_iff in Hh.
  replace ((i =? a) && (i =? b)) with false.
  2:{ rewrite (Z.eqb_sym i a), (Z.eqb_sym i b). now rewrite Hh. }
  replace ((i =? b) && (i =? a)) with false.
  2:{ rewrite (Z.eqb_sym i a), (Z.eqb_sym i b), andb_comm. now rewrite Hh. }
  simpl. now apply IH.
Qed.

(** C2. Inside a [w] x [h] grid, following the dimension-order next-hop
    decisions from [s] toward [d], one step in the returned direction each
    time, reaches [d] after exactly [|dx| + |dy|] steps: the decision there is
    [Local], no earlier decision is, every step changes x by one (East,
    West) or y by one (South, North), and every position on the way is
    inside the grid. *)
Theorem xy_route_reaches_destination (w h s d : Z) :
  0 < w -> in_grid w h s -> in_grid w h d ->
  let n := Z.to_nat (grid_distance w s d) in
  walk w n s d = d
  /\ xy_next_hop w (walk w n s d) d = L
  /\ hops_to_local w n s d = Some (grid_distance w s d)
  /\ (forall k, (k < n)%nat -> xy_next_hop w (walk w k s d) d <> L)
  /\ (forall k, (k < n)%nat ->
        id2coord w (walk w (Datatypes.S k) s d)
        = step_coord (id2coord w (walk w k s d))
                     (xy_next_hop w (walk w k s d) d))
  /\ (forall k, (k <= n)%nat -> in_grid w h (walk w k s d)).
Proof.
  intros Hw Hs Hd n. subst n.
  pose proof (grid_distance_nonneg w s d) as Hnn.
  destruct (walk_by_distance w Hw d (Z.to_nat (grid_distance w s d)) s)
    as (Hwalk & Hhops & Hnot & Hin); [lia|].
  split; [exact Hwalk|]. split; [|split; [|split; [|split]]].
  - rewrite Hwalk. now apply xy_next_hop_local.
  - rewrite Hhops. f_equal. lia.
  - exact Hnot.
  - intros k Hk. rewrite walk_snoc by exact Hw. apply move_is_step; [exact Hw|].
    intros Heq. apply (Hnot k Hk). now apply xy_next_hop_local.
  - intros k Hk. destruct (Hin k Hk) as [Hx Hy]. unfold in_grid in *.
    assert (Hb : forall i, 0 <= i < w * h -> 0 <= i mod w < w /\ 0 <= i / w < h).
    { intros i Hi. split; [apply Z.mod_pos_bound; lia|]. split.
      - apply Z.div_pos; lia.
      - apply Z.div_lt_upper_bound; lia. }
    destruct (Hb s Hs) as [Hsx Hsy]. destruct (Hb d Hd) as [Hdx Hdy].
    destruct (id2coord_decompose w Hw (walk w k s d)) as [Hdec _].
    rewrite Hdec. nia.
Qed.

(** A pair of the configured 8 x 4 mesh to which no shortcut applies. *)
Lemma xy_route_reaches_destination_witness :
  walk W 10%nat 1 30 = 30 /\ xy_next_hop W (walk W 10%nat 1 30) 30 = L.
Proof.
  pose proof (xy_route_reaches_destination W H 1 30) as Hr.
  assert (Hw : 0 < W) by (unfold W; lia).
  assert (Hs : in_grid W H 1) by (unfold in_grid, W, H; lia).
  assert (Hd : in_grid W H 30) by (unfold in_grid, W, H; lia).
  destruct (Hr Hw Hs Hd) as (H1 & H2 & _).
  split; [exact H1 | exact H2].
Defined.

(** C3. For a pair [(s, d)] of node indices that a shortcut entry
    [((a, b), p)] names in either orientation, the cell [table[s][d]] is
    the configured port [p], and it was produced by the shortcut loop, not
    by [xy_next_hop], wherever the two nodes lie. *)
Theorem shortcut_overrides_xy (w h : Z) (ports : ShortcutMap) (a b p s d : Z) :
  one_port_per_pair ports = true ->
  In ((a, b), p) ports ->
  same_pair (s, d) (a, b) = true ->
  in_grid w h s -> in_grid w h d ->
  entry (routing_table w h ports) s d = p
  /\ cell_decision w ports s d = ByShortcut p
  /\ uses_xy (cell_decision w ports s d) = false.
Proof.
  intros Hone Hin Hsame Hs Hd.
  pose proof (scan_shortcuts_found ports s d a b p Hone Hin Hsame) as Hscan.
  rewrite entry_routing_table by assumption.
  unfold cell, cell_decision. rewrite Hscan. simpl. auto.
Qed.

(** Cell [31][0] of the printed table: the pair is declared as [(0, 31)]. *)
Lemma shortcut_overrides_xy_witness : entry printed_table 31 0 = 5.
Proof.
  refine (proj1 (shortcut_overrides_xy W H shortcut_ports 0 31 5 31 0 _ _ _ _ _)).
  - reflexivity.
  - simpl. left. reflexivity.
  - reflexivity.
  - unfold in_grid, W, H. lia.
  - unfold in_grid, W, H. lia.
Defined.

Lemma configured_ports_no_self_pair (i : Z) :
  no_self_pair shortcut_ports i = true.
Proof.
  unfold no_self_pair, shortcut_ports. cbn [forallb fst snd].
  repeat (apply andb_true_iff; split); try reflexivity;
    match goal with
    | |- negb ((?x =? i) && (?y =? i)) = true =>
        destruct (Z.eqb_spec x i), (Z.eqb_spec y i); try reflexivity; lia
    end.
Qed.

(** C7, as stated, fails for a map that pairs a node with itself: on the
    1 x 1 mesh with the single entry [(0, 0): 5] the only cell, which is on
    the diagonal, holds the shortcut port. *)
Lemma diagonal_overridden_by_self_pair :
  entry (routing_table 1 1 [((0, 0), 5)]) 0 0 <> L.
Proof. vm_compute. discriminate. Qed.

(** C7 (amended). For every [w >= 1], [h >= 1] and shortcut map the table has
    exactly [w*h] rows of exactly [w*h] ports each; a diagonal cell [i][i] is
    [Local] whenever the map does not pair [i] with itself; the direction
    ports are North=0, East=1, South=2, West=3, Local=4; and the configured
    map, which has no self-pair, binds its pairs to 5, 6, 7, 8 in the order
    they are declared. *)
Theorem routing_table_shape (w h : Z) (ports : ShortcutMap) :
  1 <= w -> 1 <= h ->
  length (routing_table w h ports) = Z.to_nat (w * h)
  /\ (forall row, In row (routing_table w h ports) ->
        length row = Z.to_nat (w * h))
  /\ (forall i, in_grid w h i -> no_self_pair ports i = true ->
        entry (routing_table w h ports) i i = L)
  /\ (N, E, S, WDIR, L) = (0, 1, 2, 3, 4)
  /\ map snd shortcut_ports
     = map (fun k => 5 + k) (range (Z.of_nat (length shortcut_ports)))
  /\ (forall i, no_self_pair shortcut_ports i = true).
Proof.
  intros Hw Hh. split; [|split; [|split; [|split; [|split]]]].
  - unfold routing_table. now rewrite length_map, range_length.
  - unfold routing_table. intros row Hrow. apply in_map_iff in Hrow.
    destruct Hrow as (s & <- & _). unfold table_row.
    now rewrite length_map, range_length.
  - intros i Hi Hno. rewrite entry_routing_table by assumption.
    unfold cell, cell_decision. rewrite scan_shortcuts_diagonal by assumption.
    simpl. now apply xy_next_hop_local.
  - reflexivity.
  - reflexivity.
  - exact configured_ports_no_self_pair.
Qed.

(** The printed 8 x 4 table: 32 rows, and cell [9][9] is [Local]. *)
Lemma routing_table_shape_witness :
  length printed_table = 32%nat /\ entry printed_table 9 9 = L.
Proof.
  assert (Hw : 1 <= W) by (unfold W; lia).
  assert (Hh : 1 <= H) by (unfold H; lia).
  destruct (routing_table_shape W H shortcut_ports Hw Hh) as (Hlen & _ & Hdiag & _).
  split.
  - exact Hlen.
  - apply Hdiag; [unfold in_grid, W, H; lia | reflexivity].
Defined.

End TableFacts.


(** ** Graphs and the mesh *)

Module GraphFacts.
Import Dashboard.

Lemma node_eqb_eq (u v : Node) : node_eqb u v = true <-> u = v.
Proof.
  destruct u as [a b], v as [c d]. unfold node_eqb. simpl.
  rewrite andb_true_iff, !Z.eqb_eq. split.
  - intros [-> ->]. reflexivity.
  - intros Heq. inversion Heq. auto.
Qed.

Lemma node_eqb_refl (u : Node) : node_eqb u u = true.
Proof. now apply node_eqb_eq. Qed.

Lemma node_eqb_neq (u v : Node) : node_eqb u v = false <-> u <> v.
Proof.
  rewrite <- node_eqb_eq. destruct (node_eqb u v); split; congruence.
Qed.

Lemma mem_nodes (xs : list Node) (u : Node) :
  existsb (node_eqb u) xs = true <-> In u xs.
Proof.
  rewrite existsb_exists. split.
  - intros (v & Hin & Heq). apply node_eqb_eq in Heq. now subst.
  - intros Hin. exists u. split; [assumption|apply node_eqb_refl].
Qed.

Lemma has_node_spec (g : Graph) (u : Node) :
  has_node g u = true <-> In u (nodes g).
Proof. apply mem_nodes. Qed.

Lemma joins_spec (u v : Node) (e : Node * Node) :
  joins u v e = true <-> e = (u, v) \/ e = (v, u).
Proof.
  destruct e as [a b]. unfold joins. simpl.
  rewrite orb_true_iff, !andb_true_iff, !node_eqb_eq. split.
  - intros [[-> ->]|[-> ->]]; auto.
  - intros [Heq|Heq]; inversion Heq; auto.
Qed.

Lemma joins_sym (u v : Node) (e : Node * Node) : joins u v e = joins v u e.
Proof. unfold joins. apply orb_comm. Qed.

Lemma has_edge_spec (g : Graph) (u v : Node) :
  has_edge g u v = true <-> In (u, v) (edges g) \/ In (v, u) (edges g).
Proof.
  unfold has_edge. rewrite existsb_exists. split.
  - intros (e & Hin & Hj). apply joins_spec in Hj. destruct Hj; subst; auto.
  - intros [Hin|Hin]; eexists; (split; [exact Hin|]); apply joins_spec; auto.
Qed.

Lemma has_edge_sym (g : Graph) (u v : Node) : has_edge g u v = has_edge g v u.
Proof.
  unfold has_edge. induction (edges g) as [|e es IH]; [reflexivity|].
  simpl. now rewrite IH, joins_sym.
Qed.

Lemma distinct_nodes_spec (xs : list Node) :
  distinct_nodes xs = true <-> NoDup xs.
Proof.
  induction xs as [|x rest IH]; simpl.
  - split; [constructor|reflexivity].
  - rewrite andb_true_iff, negb_true_iff, IH, NoDup_cons_iff.
    rewrite <- not_true_iff_false, mem_nodes. tauto.
Qed.

(** Edges stored once each and never together with their reverse are
    distinct as unordered pairs. *)
Lemma distinct_edges_oriented (es : list (Node * Node)) :
  NoDup es ->
  (forall e, In e es -> ~ In (snd e, fst e) es) ->
  distinct_edges es = true.
Proof.
  induction es as [|[a b] rest IH]; intros Hnd Hrev; [reflexivity|].
  simpl. apply NoDup_cons_iff in Hnd. destruct Hnd as [Hnotin Hnd].
  apply andb_true_iff. split.
  - apply negb_true_iff, not_true_iff_false. intros Hex.
    apply existsb_exists in Hex. destruct Hex as (e & Hin & Hj).
    apply joins_spec in Hj. destruct Hj as [->| ->].
    + contradiction.
    + apply (Hrev (a, b)); [left; reflexivity|]. simpl. right. exact Hin.
  - apply IH; [assumption|].
    intros e Hin Hin'. apply (Hrev e); right; assumption.
Qed.

(** *** Facts about products and consecutive pairs *)

Lemma flat_map_as_prod {A B C} (f : A -> B -> C) (l1 : list A) (l2 : list B) :
  flat_map (fun x => map (f x) l2) l1
  = map (fun p => f (fst p) (snd p)) (list_prod l1 l2).
Proof.
  induction l1 as [|x l1 IH]; [reflexivity|].
  simpl. rewrite map_app, map_map, IH. reflexivity.
Qed.

Lemma NoDup_prod {A B} (l1 : list A) (l2 : list B) :
  NoDup l1 -> NoDup l2 -> NoDup (list_prod l1 l2).
Proof.
  intros H1 H2. induction H1 as [|x l1 Hx H1 IH]; [constructor|].
  simpl. apply NoDup_app.
  - apply Injective_map_NoDup; [|assumption].
    intros y y' Heq. now inversion Heq.
  - exact IH.
  - intros [a b] Hin Hin'. apply in_map_iff in Hin.
    destruct Hin as (y & Heq & _). inversion Heq; subst.
    apply in_prod_iff in Hin'. tauto.
Qed.

Lemma pairwise_step {A} (x y : A) (rest : list A) :
  pairwise (x :: y :: rest) = (x, y) :: pairwise (y :: rest).
Proof. reflexivity. Qed.

Lemma pairwise_seq (k a : nat) :
  pairwise (map Z.of_nat (seq a k))
  = map (fun i => (Z.of_nat i, Z.of_nat i + 1)) (seq a (Nat.pred k)).
Proof.
  revert a. induction k as [|k IH]; intros a; [reflexivity|].
  destruct k as [|k]; [reflexivity|].
  assert (Hr : map Z.of_nat (seq (Datatypes.S a) (Datatypes.S k))
               = Z.of_nat (Datatypes.S a)
                   :: map Z.of_nat (seq (Datatypes.S (Datatypes.S a)) k))
    by reflexivity.
  change (map Z.of_nat (seq a (Datatypes.S (Datatypes.S k))))
    with (Z.of_nat a :: map Z.of_nat (seq (Datatypes.S a) (Datatypes.S k))).
  rewrite Hr, pairwise_step, <- Hr, IH.
  change (Nat.pred (Datatypes.S (Datatypes.S k))) with (Datatypes.S k).
  change (seq a (Datatypes.S k)) with (a :: seq (Datatypes.S a) k).
  cbn [map Nat.pred]. f_equal. f_equal. lia.
Qed.

Lemma pairwise_range (m : Z) :
  pairwise (range m) = map (fun i => (i, i + 1)) (range (m - 1)).
Proof.
  unfold range. rewrite pairwise_seq, map_map.
  replace (Z.to_nat (m - 1)) with (Nat.pred (Z.to_nat m)) by lia.
  reflexivity.
Qed.

Lemma pairwise_range_NoDup (m : Z) : NoDup (pairwise (range m)).
Proof.
  rewrite pairwise_range. apply Injective_map_NoDup; [|apply range_NoDup].
  intros i j Heq. now inversion Heq.
Qed.

Lemma in_pairwise_range (m a b : Z) :
  In (a, b) (pairwise (range m)) <-> 0 <= a /\ b = a + 1 /\ b < m.
Proof.
  rewrite pairwise_range, in_map_iff. split.
  - intros (i & Heq & Hi). apply in_range in Hi. inversion Heq; subst. lia.
  - intros (Ha & -> & Hb). exists a. split; [reflexivity|]. apply in_range. lia.
Qed.

(** *** The nodes and edges of [grid_2d_graph] *)

Lemma grid_nodes_prod (m n : Z) :
  grid_nodes m n
  = map (fun p => (fst p, snd p)) (list_prod (range m) (range n)).
Proof. unfold grid_nodes. apply (flat_map_as_prod (fun i j => (i, j))). Qed.

Lemma grid_row_edges_prod (m n : Z) :
  grid_row_edges m n
  = map (fun p => ((snd (fst p), snd p), (fst (fst p), snd p)))
        (list_prod (pairwise (range m)) (range n)).
Proof.
  unfold grid_row_edges.
  apply (flat_map_as_prod (fun r j => ((snd r, j), (fst r, j)))).
Qed.

Lemma grid_col_edges_prod (m n : Z) :
  grid_col_edges m n
  = map (fun p => ((fst p, snd (snd p)), (fst p, fst (snd p))))
        (list_prod (range m) (pairwise (range n))).
Proof.
  unfold grid_col_edges.
  apply (flat_map_as_prod (fun i c => ((i, snd c), (i, fst c)))).
Qed.

Lemma in_grid_nodes (m n : Z) (u : Node) :
  In u (grid_nodes m n) <-> 0 <= fst u < m /\ 0 <= snd u < n.
Proof.
  rewrite grid_nodes_prod, in_map_iff. split.
  - intros ([i j] & <- & Hin). apply in_prod_iff in Hin.
    rewrite !in_range in Hin. exact Hin.
  - intros [Hi Hj]. exists u. destruct u as [i j]. split; [reflexivity|].
    apply in_prod_iff. now rewrite !in_range.
Qed.

Lemma grid_nodes_NoDup (m n : Z) : NoDup (grid_nodes m n).
Proof.
  rewrite grid_nodes_prod. apply Injective_map_NoDup.
  - intros [a b] [c d] Heq. exact Heq.
  - apply NoDup_prod; apply range_NoDup.
Qed.

Lemma in_grid_row_edges (m n : Z) (e : Node * Node) :
  In e (grid_row_edges m n)
  <-> exists i j, e = ((i + 1, j), (i, j)) /\ 0 <= i /\ i + 1 < m /\ 0 <= j < n.
Proof.
  rewrite grid_row_edges_prod, in_map_iff. split.
  - intros ([[a b] j] & <- & Hin). apply in_prod_iff in Hin.
    destruct Hin as [Hab Hj]. apply in_pairwise_range in Hab.
    apply in_range in Hj. destruct Hab as (Ha & -> & Hb).
    exists a, j. simpl. auto.
  - intros (i & j & -> & Hi & Hi' & Hj). exists ((i, i + 1), j).
    split; [reflexivity|]. apply in_prod_iff. split.
    + apply in_pairwise_range. lia.
    + now apply in_range.
Qed.

Lemma in_grid_col_edges (m n : Z) (e : Node * Node) :
  In e (grid_col_edges m n)
  <-> exists i j, e = ((i, j + 1), (i, j)) /\ 0 <= i < m /\ 0 <= j /\ j + 1 < n.
Proof.
  rewrite grid_col_edges_prod, in_map_iff. split.
  - intros ([i [a b]] & <- & Hin). apply in_prod_iff in Hin.
    destruct Hin as [Hi Hab]. apply in_pairwise_range in Hab.
    apply in_range in Hi. destruct Hab as (Ha & -> & Hb).
    exists i, a. simpl. auto.
  - intros (i & j & -> & Hi & Hj & Hj'). exists (i, (j, j + 1)).
    split; [reflexivity|]. apply in_prod_iff. split.
    + now apply in_range.
    + apply in_pairwise_range. lia.
Qed.

(** Every stored edge goes from a node to the one a step before it. *)
Lemma in_grid_edges (m n : Z) (e : Node * Node) :
  In e (edges (grid_2d_graph m n))
  <-> In (fst e) (grid_nodes m n) /\ In (snd e) (grid_nodes m n)
      /\ ((fst (fst e) = fst (snd e) + 1 /\ snd (fst e) = snd (snd e))
          \/ (fst (fst e) = fst (snd e) /\ snd (fst e) = snd (snd e) + 1)).
Proof.
  simpl. rewrite in_app_iff, in_grid_row_edges, in_grid_col_edges,
    !in_grid_nodes.
  destruct e as [[a b] [c d]]. simpl. split.
  - intros [(i & j & Heq & H)|(i & j & Heq & H)]; inversion Heq; subst; lia.
  - intros (Ha & Hc & [[-> ->]|[-> ->]]).
    + left. exists c, d. split; [reflexivity|]. lia.
    + right. exists c, d. split; [reflexivity|]. lia.
Qed.

Lemma grid_edges_NoDup (m n : Z) : NoDup (edges (grid_2d_graph m n)).
Proof.
  simpl. apply NoDup_app.
  - rewrite grid_row_edges_prod. apply Injective_map_NoDup.
    + intros [[a b] j] [[a' b'] j'] Heq. simpl in Heq. now inversion Heq.
    + apply NoDup_prod; [apply pairwise_range_NoDup|apply range_NoDup].
  - rewrite grid_col_edges_prod. apply Injective_map_NoDup.
    + intros [i [a b]] [i' [a' b']] Heq. simpl in Heq. now inversion Heq.
    + apply NoDup_prod; [apply range_NoDup|apply pairwise_range_NoDup].
  - intros e Hrow Hcol. apply in_grid_row_edges in Hrow.
    apply in_grid_col_edges in Hcol.
    destruct Hrow as (i & j & -> & _). destruct Hcol as (i' & j' & Heq & _).
    inversion Heq. lia.
Qed.

Lemma grid_well_formed (m n : Z) : well_formed (grid_2d_graph m n) = true.
Proof.
  unfold well_formed. rewrite !andb_true_iff. split; [split|].
  - apply distinct_nodes_spec. apply grid_nodes_NoDup.
  - apply forallb_forall. intros e He. apply in_grid_edges in He.
    rewrite andb_true_iff, !has_node_spec. simpl. tauto.
  - apply distinct_edges_oriented; [apply grid_edges_NoDup|].
    intros e He Hrev. apply in_grid_edges in He. apply in_grid_edges in Hrev.
    simpl in Hrev. lia.
Qed.

Lemma grid_has_edge (m n : Z) (u v : Node) :
  has_edge (grid_2d_graph m n) u v = true
  <-> In u (grid_nodes m n) /\ In v (grid_nodes m n) /\ manhattan u v = 1.
Proof.
  rewrite has_edge_spec, !in_grid_edges. unfold manhattan. simpl.
  destruct u as [a b], v as [c d]. simpl. split.
  - intros [H|H]; (split; [tauto|split; [tauto|lia]]).
  - intros (Hu & Hv & Hd).
    assert ((a = c + 1 /\ b = d) \/ (a = c /\ b = d + 1)
            \/ (c = a + 1 /\ d = b) \/ (c = a /\ d = b + 1)) as Hcase by lia.
    destruct Hcase as [H|[H|[H|H]]]; [left|left|right|right]; tauto.
Qed.

(** C6. For all [rows >= 1] and [cols >= 1], [create_mesh_topology] has
    exactly [rows * cols] nodes, the in-bounds coordinates, and exactly
    [rows * (cols - 1) + cols * (rows - 1)] edges; two nodes are joined
    exactly when they are at Manhattan distance 1 (so no diagonal and no
    wraparound edge), and no node or edge is stored twice. *)
Theorem mesh_nodes_and_edges (rows cols : Z) :
  1 <= rows -> 1 <= cols ->
  let g := create_mesh_topology rows cols in
  Z.of_nat (length (nodes g)) = rows * cols
  /\ Z.of_nat (length (edges g)) = rows * (cols - 1) + cols * (rows - 1)
  /\ (forall u, In u (nodes g) <-> 0 <= fst u < rows /\ 0 <= snd u < cols)
  /\ (forall u v, has_edge g u v = true
                  <-> In u (nodes g) /\ In v (nodes g) /\ manhattan u v = 1)
  /\ well_formed g = true.
Proof.
  intros Hr Hc g. subst g. unfold create_mesh_topology.
  split; [|split; [|split; [|split]]].
  - simpl. rewrite grid_nodes_prod, length_map, length_prod, !range_length. nia.
  - simpl. rewrite length_app, grid_row_edges_prod, grid_col_edges_prod,
      !length_map, !length_prod, !pairwise_range, !length_map, !range_length.
    nia.
  - intros u. apply in_grid_nodes.
  - intros u v. apply grid_has_edge.
  - apply grid_well_formed.
Qed.

(** The 2 x 3 mesh: six nodes, seven edges. *)
Lemma mesh_nodes_and_edges_witness :
  Z.of_nat (length (nodes (create_mesh_topology 2 3))) = 2 * 3
  /\ Z.of_nat (length (edges (create_mesh_topology 2 3))) = 2 * (3 - 1) + 3 * (2 - 1).
Proof.
  assert (Hr : 1 <= 2) by lia. assert (Hc : 1 <= 3) by lia.
  destruct (mesh_nodes_and_edges 2 3 Hr Hc) as (Hn & He & _).
  split; [exact Hn | exact He].
Defined.

End GraphFacts.

(** ** Small-world links *)

Module LinksFacts.
Import Dashboard GraphFacts.

(** *** The store *)

Lemma deref_assign_same (st : Store) (r : Ref) (g : Graph) :
  (r < length st)%nat -> deref (assign st r g) r = g.
Proof.
  unfold deref. revert r. induction st as [|x st IH]; intros [|r] Hr;
    simpl in *; try lia; [reflexivity|]. apply IH. lia.
Qed.

Lemma length_assign (st : Store) (r : Ref) (g : Graph) :
  length (assign st r g) = length st.
Proof.
  revert r. induction st as [|x st IH]; intros [|r]; simpl; auto.
Qed.

Lemma assign_deref (st : Store) (r : Ref) : assign st r (deref st r) = st.
Proof.
  unfold deref. revert r. induction st as [|x st IH]; intros [|r]; simpl;
    try reflexivity. now rewrite IH.
Qed.

Lemma assign_assign (st : Store) (r : Ref) (g g' : Graph) :
  assign (assign st r g) r g' = assign st r g'.
Proof.
  revert r. induction st as [|x st IH]; intros [|r]; simpl; try reflexivity.
  now rewrite IH.
Qed.

(** The loop changes only the object of [new_graph], as the loop on its
    value does. *)
Lemma links_loop_on_value (k : Z) (ns : list Node) (rng : Rng) :
  forall (st : Store) (r : Ref) (added : Z),
    (r < length st)%nat ->
    links_loop rng st r ns added k
    = match links_on_value rng (deref st r) ns added k with
      | Returned (g', rng') => Returned (assign st r g', rng')
      | Raised e => Raised e
      | Starved => Starved
      end.
Proof.
  induction rng as [|d rng IH]; intros st r added Hr.
  - simpl. destruct (added <? k); [|now rewrite assign_deref].
    destruct (length (non_edges (deref st r)) =? 0)%nat;
      [now rewrite assign_deref|].
    destruct ns as [|x [|y ns]]; reflexivity.
  - simpl. destruct (added <? k); [|now rewrite assign_deref].
    destruct (length (non_edges (deref st r)) =? 0)%nat;
      [now rewrite assign_deref|].
    destruct (sample2 ns d) as [[u v]|]; [|reflexivity].
    destruct (negb (has_edge (deref st r) u v) && (manhattan u v >? 1)).
    + rewrite IH by (now rewrite length_assign).
      rewrite deref_assign_same by assumption.
      destruct (links_on_value rng _ ns (added + 1) k) as [[g' rng']| |];
        try reflexivity.
      now rewrite assign_assign.
    + now apply IH.
Qed.

(** *** Pairs of nodes *)

Lemma in_all_pairs {A} (xs : list A) (a b : A) :
  In (a, b) (all_pairs xs) -> In a xs /\ In b xs.
Proof.
  induction xs as [|x rest IH]; simpl; [tauto|].
  rewrite in_app_iff, in_map_iff. intros [(y & Heq & Hy)|Hin].
  - inversion Heq; subst. auto.
  - destruct (IH Hin). auto.
Qed.

Lemma all_pairs_NoDup {A} (xs : list A) : NoDup xs -> NoDup (all_pairs xs).
Proof.
  induction 1 as [|x rest Hx Hnd IH]; simpl; [constructor|].
  apply NoDup_app.
  - apply Injective_map_NoDup; [|assumption].
    intros y y' Heq. now inversion Heq.
  - exact IH.
  - intros [a b] Hin Hin'. apply in_map_iff in Hin.
    destruct Hin as (y & Heq & _). inversion Heq; subst.
    apply in_all_pairs in Hin'. tauto.
Qed.

Lemma all_pairs_distinct {A} (xs : list A) (a b : A) :
  NoDup xs -> In (a, b) (all_pairs xs) -> a <> b.
Proof.
  induction 1 as [|x rest Hx Hnd IH]; simpl; [tauto|].
  rewrite in_app_iff, in_map_iff. intros [(y & Heq & Hy)|Hin].
  - inversion Heq; subst. intros ->. contradiction.
  - now apply IH.
Qed.

Lemma all_pairs_one_orientation {A} (xs : list A) (a b : A) :
  NoDup xs -> In (a, b) (all_pairs xs) -> ~ In (b, a) (all_pairs xs).
Proof.
  induction 1 as [|x rest Hx Hnd IH]; simpl; [tauto|].
  rewrite !in_app_iff, !in_map_iff.
  intros [(y & Heq & Hy)|Hin] [(y' & Heq' & Hy')|Hin'].
  - inversion Heq; inversion Heq'; subst. contradiction.
  - inversion Heq; subst. apply in_all_pairs in Hin'. tauto.
  - inversion Heq'; subst. apply in_all_pairs in Hin. tauto.
  - now apply IH.
Qed.

Lemma filter_unique_length {A} (f : A -> bool) (l : list A) :
  NoDup l ->
  (forall x y, In x l -> In y l -> f x = true -> f y = true -> x = y) ->
  (length (filter f l) <= 1)%nat.
Proof.
  induction 1 as [|x rest Hx Hnd IH]; intros Huniq; simpl; [lia|].
  destruct (f x) eqn:Hfx.
  - assert (Hnone : filter f rest = []).
    { destruct (filter f rest) as [|y ys] eqn:Hf; [reflexivity|].
      assert (Hy : In y (filter f rest)) by (rewrite Hf; left; reflexivity).
      apply filter_In in Hy. destruct Hy as [Hy Hfy].
      assert (x = y) by (apply Huniq; simpl; auto). subst. contradiction. }
    rewrite Hnone. simpl. lia.
  - apply IH. intros a b Ha Hb. apply Huniq; simpl; auto.
Qed.

Lemma filter_split_length {A} (f j : A -> bool) (l : list A) :
  (length (filter f l)
   <= length (filter (fun x => f x && negb (j x)) l) + length (filter j l))%nat.
Proof.
  induction l as [|x l IH]; simpl; [lia|].
  destruct (f x), (j x); simpl; lia.
Qed.

(** At most one of the pairs of distinct nodes is joined by a given edge. *)
Lemma joined_at_most_once (xs : list Node) (e : Node * Node) :
  NoDup xs ->
  (length (filter (fun p => joins (fst p) (snd p) e) (all_pairs xs)) <= 1)%nat.
Proof.
  intros Hnd. apply filter_unique_length; [now apply all_pairs_NoDup|].
  intros [a b] [c d] Hp Hq Hjp Hjq. simpl in *.
  apply joins_spec in Hjp, Hjq.
  destruct Hjp as [->| ->], Hjq as [Heq|Heq]; inversion Heq; subst;
    try reflexivity; exfalso;
    eapply all_pairs_one_orientation; eauto.
Qed.

(** *** Sampling two nodes *)

Lemma length_drop_nth {A} (i : nat) (xs : list A) :
  (i < length xs)%nat -> length (drop_nth i xs) = Nat.pred (length xs).
Proof.
  revert i. induction xs as [|x xs IH]; intros [|i] Hi; simpl in *; try lia.
  rewrite IH by lia. destruct xs; simpl in *; lia.
Qed.

Lemma in_drop_nth {A} (i : nat) (xs : list A) (v : A) :
  In v (drop_nth i xs) -> In v xs.
Proof.
  revert i. induction xs as [|x xs IH]; intros [|i]; simpl; auto.
  intros [->|Hin]; eauto.
Qed.

Lemma in_drop_nth_other {A} (i : nat) (xs : list A) (v d : A) :
  In v xs -> v <> nth i xs d -> In v (drop_nth i xs).
Proof.
  revert i. induction xs as [|x xs IH]; intros [|i]; simpl; try tauto.
  - intros [->|Hin] Hne; [contradiction|assumption].
  - intros [->|Hin] Hne; [left; reflexivity|right; now apply IH].
Qed.

Lemma sample2_unfold {A} (x y : A) (rest : list A) (d : Draw) :
  let l := x :: y :: rest in
  let i := (fst d mod length l)%nat in
  sample2 l d
  = Some (nth i l x, nth (snd d mod (length l - 1))%nat (drop_nth i l) x).
Proof. reflexivity. Qed.

Lemma sample2_sound {A} (xs : list A) (d : Draw) (u v : A) :
  sample2 xs d = Some (u, v) -> In u xs /\ In v xs.
Proof.
  destruct xs as [|x [|y rest]]; try discriminate.
  rewrite sample2_unfold. cbv zeta.
  assert (Hlen : (2 <= length (x :: y :: rest))%nat) by (simpl; lia).
  revert Hlen. generalize (x :: y :: rest). intros l Hlen Heq.
  injection Heq as <- <-.
  assert (Hi : (fst d mod length l < length l)%nat)
    by (apply Nat.mod_upper_bound; lia).
  split.
  - apply nth_In. exact Hi.
  - apply in_drop_nth with (i := (fst d mod length l)%nat).
    apply nth_In. rewrite length_drop_nth by exact Hi.
    replace (Nat.pred (length l)) with (length l - 1)%nat by lia.
    apply Nat.mod_upper_bound. lia.
Qed.

Lemma sample2_some {A} (xs : list A) (d : Draw) :
  (2 <= length xs)%nat -> exists u v, sample2 xs d = Some (u, v).
Proof.
  intros Hlen. destruct xs as [|x [|y rest]]; simpl in Hlen; try lia.
  rewrite sample2_unfold. eauto.
Qed.

(** Every ordered pair of distinct elements is the outcome of some choice. *)
Lemma sample2_reaches {A} (xs : list A) (u v : A) :
  In u xs -> In v xs -> u <> v -> exists d, sample2 xs d = Some (u, v).
Proof.
  intros Hu Hv Hne.
  destruct xs as [|x [|y rest]].
  - destruct Hu.
  - simpl in Hu, Hv. destruct Hu as [->|[]], Hv as [->|[]]. contradiction.
  - assert (Hex : forall d, sample2 (x :: y :: rest) d
        = Some (nth (fst d mod length (x :: y :: rest)) (x :: y :: rest) x,
                nth (snd d mod (length (x :: y :: rest) - 1))
                    (drop_nth (fst d mod length (x :: y :: rest))
                              (x :: y :: rest)) x))
      by (intros d; apply sample2_unfold).
    revert Hu Hv Hex. generalize (x :: y :: rest). intros l Hu Hv Hex.
    destruct (In_nth l u x Hu) as (i & Hi & Hnth).
    assert (Hv' : In v (drop_nth i l)).
    { apply in_drop_nth_other with (d := x); [assumption|]. congruence. }
    destruct (In_nth (drop_nth i l) v x Hv') as (j & Hj & Hnth').
    rewrite length_drop_nth in Hj by assumption.
    exists (i, j). rewrite Hex. cbn [fst snd].
    rewrite Nat.mod_small by assumption.
    replace (length l - 1)%nat with (Nat.pred (length l)) by lia.
    rewrite Nat.mod_small by assumption.
    now rewrite Hnth, Hnth'.
Qed.

(** *** Adding one edge *)

Lemma add_edge_new (g : Graph) (u v : Node) :
  In u (nodes g) -> In v (nodes g) -> has_edge g u v = false ->
  add_edge g u v = mkGraph (nodes g) (edges g ++ [(u, v)]).
Proof.
  intros Hu Hv He. unfold add_edge, add_node.
  rewrite (proj2 (has_node_spec g u) Hu), (proj2 (has_node_spec g v) Hv).
  now rewrite He.
Qed.

Lemma has_edge_snoc (ns : list Node) (es : list (Node * Node))
    (e : Node * Node) (a b : Node) :
  has_edge (mkGraph ns (es ++ [e])) a b
  = has_edge (mkGraph ns es) a b || joins a b e.
Proof.
  unfold has_edge. simpl. rewrite existsb_app. simpl. now rewrite orb_false_r.
Qed.

Lemma has_edge_app (ns : list Node) (es new : list (Node * Node)) (a b : Node) :
  has_edge (mkGraph ns es) a b = true ->
  has_edge (mkGraph ns (es ++ new)) a b = true.
Proof.
  unfold has_edge. simpl. rewrite existsb_app. intros ->. reflexivity.
Qed.

Lemma joins_swap (e e' : Node * Node) :
  joins (fst e) (snd e) e' = joins (fst e') (snd e') e.
Proof.
  destruct e as [a b], e' as [c d]. simpl.
  destruct (joins c d (a, b)) eqn:H1.
  - apply joins_spec in H1. apply joins_spec.
    destruct H1 as [H1|H1]; inversion H1; auto.
  - apply not_true_iff_false. intros H2. apply not_true_iff_false in H1.
    apply H1. apply joins_spec in H2. apply joins_spec.
    destruct H2 as [H2|H2]; inversion H2; auto.
Qed.

Lemma distinct_edges_snoc (es : list (Node * Node)) (e : Node * Node) :
  distinct_edges es = true ->
  existsb (joins (fst e) (snd e)) es = false ->
  distinct_edges (es ++ [e]) = true.
Proof.
  induction es as [|e0 es IH]; simpl; intros Hd He; [reflexivity|].
  apply andb_true_iff in Hd. destruct Hd as [Hd0 Hd].
  apply orb_false_iff in He. destruct He as [He0 He].
  apply andb_true_iff. split; [|now apply IH].
  rewrite existsb_app. simpl. rewrite orb_false_r.
  rewrite negb_true_iff in *. rewrite Hd0. simpl.
  now rewrite joins_swap.
Qed.

Lemma well_formed_snoc (g : Graph) (u v : Node) :
  well_formed g = true ->
  In u (nodes g) -> In v (nodes g) -> has_edge g u v = false ->
  well_formed (mkGraph (nodes g) (edges g ++ [(u, v)])) = true.
Proof.
  unfold well_formed. rewrite !andb_true_iff. simpl.
  intros [[Hn He] Hd] Hu Hv Hno. split; [split|].
  - exact Hn.
  - rewrite forallb_app. simpl. rewrite andb_true_iff. split.
    + exact He.
    + unfold has_node. simpl.
      now rewrite (proj2 (mem_nodes _ u) Hu), (proj2 (mem_nodes _ v) Hv).
  - apply distinct_edges_snoc; assumption.
Qed.

Lemma mesh_like_app (ns : list Node) (es new : list (Node * Node)) :
  mesh_like (mkGraph ns es) = true -> mesh_like (mkGraph ns (es ++ new)) = true.
Proof.
  unfold mesh_like. simpl. rewrite !forallb_forall. intros Hm p Hp.
  specialize (Hm p Hp).
  destruct (manhattan (fst p) (snd p) <=? 1); [|reflexivity].
  simpl in *. now apply has_edge_app.
Qed.

(** In a mesh-like graph the pairs that no edge joins are all eligible. *)
Lemma mesh_like_eligible (g : Graph) :
  mesh_like g = true -> eligible_pairs g = non_edges g.
Proof.
  unfold mesh_like, eligible_pairs, non_edges, eligible. intros Hm.
  apply filter_ext_in. intros p Hp.
  rewrite forallb_forall in Hm. specialize (Hm p Hp).
  destruct (has_edge g (fst p) (snd p)); [reflexivity|]. simpl.
  destruct (Z.leb_spec (manhattan (fst p) (snd p)) 1); [discriminate|].
  apply Z.gtb_lt. lia.
Qed.

Lemma eligible_in_non_edges (g : Graph) :
  non_edges g = [] -> eligible_pairs g = [].
Proof.
  unfold non_edges, eligible_pairs, eligible.
  induction (all_pairs (nodes g)) as [|p ps IH]; [reflexivity|]. simpl.
  destruct (has_edge g (fst p) (snd p)); simpl; [assumption|discriminate].
Qed.

(** *** Counting the eligible pairs *)

Lemma eligible_count_snoc (ns : list Node) (es : list (Node * Node))
    (e : Node * Node) :
  NoDup ns ->
  (length (eligible_pairs (mkGraph ns es))
   <= length (eligible_pairs (mkGraph ns (es ++ [e]))) + 1)%nat.
Proof.
  intros Hnd. unfold eligible_pairs. simpl.
  pose proof (filter_split_length
                (fun p => eligible (mkGraph ns es) (fst p) (snd p))
                (fun p => joins (fst p) (snd p) e) (all_pairs ns)) as Hsplit.
  pose proof (joined_at_most_once ns e Hnd) as Hone.
  rewrite (filter_ext
             (fun p => eligible (mkGraph ns (es ++ [e])) (fst p) (snd p))
             (fun p => eligible (mkGraph ns es) (fst p) (snd p)
                       && negb (joins (fst p) (snd p) e))).
  - lia.
  - intros p. unfold eligible. rewrite has_edge_snoc, negb_orb.
    destruct (negb (has_edge (mkGraph ns es) (fst p) (snd p))),
      (negb (joins (fst p) (snd p) e)), (manhattan (fst p) (snd p) >? 1);
      reflexivity.
Qed.

Lemma eligible_count_app (ns : list Node) (new es : list (Node * Node)) :
  NoDup ns ->
  (length (eligible_pairs (mkGraph ns es))
   <= length (eligible_pairs (mkGraph ns (es ++ new))) + length new)%nat.
Proof.
  intros Hnd. revert es. induction new as [|e new IH]; intros es.
  - rewrite app_nil_r. simpl. lia.
  - pose proof (eligible_count_snoc ns es e Hnd) as Hstep.
    specialize (IH (es ++ [e])). rewrite <- app_assoc in IH. simpl in *. lia.
Qed.

Lemma non_edges_two_nodes (g : Graph) :
  non_edges g <> [] -> (2 <= length (nodes g))%nat.
Proof.
  unfold non_edges. destruct (nodes g) as [|x [|y rest]]; simpl; try congruence.
  intros _. lia.
Qed.

Lemma eligible_pair_found (g : Graph) (u v : Node) :
  In (u, v) (eligible_pairs g) ->
  In u (nodes g) /\ In v (nodes g) /\ u <> v
  /\ has_edge g u v = false /\ (manhattan u v >? 1) = true.
Proof.
  unfold eligible_pairs, eligible. rewrite filter_In. simpl.
  rewrite andb_true_iff, negb_true_iff. intros (Hin & Hno & Hfar).
  apply in_all_pairs in Hin. repeat split; try tauto.
  intros ->. unfold manhattan in Hfar. rewrite !Z.sub_diag in Hfar.
  discriminate.
Qed.

(** *** The loop *)

Section Loop.

Variable k : Z.

(** What a finished loop has done to the graph it started from. *)
Lemma links_on_value_spec (rng : Rng) :
  forall (g : Graph) (added : Z) (g' : Graph) (rng' : Rng),
    well_formed g = true ->
    links_on_value rng g (nodes g) added k = Returned (g', rng') ->
    nodes g' = nodes g
    /\ well_formed g' = true
    /\ (mesh_like g = true -> mesh_like g' = true)
    /\ exists new,
         edges g' = edges g ++ new
         /\ (forall e, In e new ->
               has_edge g (fst e) (snd e) = false
               /\ manhattan (fst e) (snd e) > 1
               /\ In (fst e) (nodes g) /\ In (snd e) (nodes g))
         /\ added + Z.of_nat (length new) <= Z.max added k
         /\ (k <= added + Z.of_nat (length new) \/ non_edges g' = []).
Proof.
  assert (Hstop : forall g added,
    (added <? k) = false \/ (length (non_edges g) =? 0)%nat = true ->
    exists new : list (Node * Node),
      edges g = edges g ++ new
      /\ (forall e, In e new ->
            has_edge g (fst e) (snd e) = false
            /\ manhattan (fst e) (snd e) > 1
            /\ In (fst e) (nodes g) /\ In (snd e) (nodes g))
      /\ added + Z.of_nat (length new) <= Z.max added k
      /\ (k <= added + Z.of_nat (length new) \/ non_edges g = [])).
  { intros g added Hcase.
    exists []. rewrite app_nil_r. split; [reflexivity|].
    split; [intros e []|]. simpl. split; [lia|].
    destruct Hcase as [Hk|Hn].
    - left. apply Z.ltb_ge in Hk. lia.
    - right. apply Nat.eqb_eq in Hn. now apply length_zero_iff_nil. }
  induction rng as [|d rng IH]; intros g added g' rng' Hwf Hrun.
  - simpl in Hrun. destruct (added <? k) eqn:Hlt.
    + destruct (length (non_edges g) =? 0)%nat eqn:Hnone.
      * inversion Hrun; subst.
        split; [reflexivity|]. split; [assumption|]. split; [auto|].
        apply Hstop. now right.
      * destruct (nodes g) as [|x [|y ns]]; discriminate.
    + inversion Hrun; subst.
      split; [reflexivity|]. split; [assumption|]. split; [auto|].
      apply Hstop. now left.
  - simpl in Hrun. destruct (added <? k) eqn:Hlt.
    2:{ inversion Hrun; subst.
        split; [reflexivity|]. split; [assumption|]. split; [auto|].
        apply Hstop. now left. }
    destruct (length (non_edges g) =? 0)%nat eqn:Hnone.
    { inversion Hrun; subst.
      split; [reflexivity|]. split; [assumption|]. split; [auto|].
      apply Hstop. now right. }
    destruct (sample2 (nodes g) d) as [[u v]|] eqn:Hdraw; [|discriminate].
    destruct (negb (has_edge g u v) && (manhattan u v >? 1)) eqn:Hacc.
    + apply andb_true_iff in Hacc. destruct Hacc as [Hno Hfar].
      apply negb_true_iff in Hno.
      destruct (sample2_sound _ _ _ _ Hdraw) as [Hu Hv].
      rewrite (add_edge_new g u v Hu Hv Hno) in Hrun.
      set (g1 := mkGraph (nodes g) (edges g ++ [(u, v)])) in *.
      assert (Hwf1 : well_formed g1 = true) by now apply well_formed_snoc.
      destruct (IH g1 (added + 1) g' rng' Hwf1 Hrun)
        as (Hnodes & Hwf' & Hmesh & new & Hedges & Hnew & Hcount & Hexit).
      split; [exact Hnodes|]. split; [exact Hwf'|]. split.
      * intros Hm. apply Hmesh. unfold g1.
        destruct g as [ns es]. now apply mesh_like_app.
      * exists ((u, v) :: new). split; [|split; [|split]].
        -- rewrite Hedges. unfold g1. simpl. now rewrite <- app_assoc.
        -- intros e [<-|He].
           ++ simpl. apply Z.gtb_lt in Hfar. repeat split; auto. lia.
           ++ destruct (Hnew e He) as (H1 & H2 & H3 & H4).
              repeat split; auto.
              apply not_true_iff_false. intros Hold.
              apply not_true_iff_false in H1. apply H1.
              unfold g1. destruct g as [ns es]. now apply has_edge_app.
        -- apply Z.ltb_lt in Hlt. simpl length. lia.
        -- simpl length. destruct Hexit as [Hk|Hn]; [left; lia|right; exact Hn].
    + exact (IH g added g' rng' Hwf Hrun).
Qed.

(** The loop never raises: [random.sample] is reached only while some pair
    of nodes is not joined, and then there are two nodes to draw. *)
Lemma links_on_value_no_raise (rng : Rng) :
  forall (g : Graph) (added : Z) (e : exn),
    links_on_value rng g (nodes g) added k <> Raised e.
Proof.
  induction rng as [|d rng IH]; intros g added e.
  - simpl. destruct (added <? k); [|discriminate].
    destruct (length (non_edges g) =? 0)%nat eqn:Hnone; [discriminate|].
    apply Nat.eqb_neq in Hnone.
    assert (Hne : non_edges g <> []) by (now rewrite <- length_zero_iff_nil).
    apply non_edges_two_nodes in Hne.
    destruct (nodes g) as [|x [|y ns]]; simpl in *; try lia. discriminate.
  - simpl. destruct (added <? k); [|discriminate].
    destruct (length (non_edges g) =? 0)%nat eqn:Hnone; [discriminate|].
    apply Nat.eqb_neq in Hnone.
    assert (Hne : non_edges g <> []) by (now rewrite <- length_zero_iff_nil).
    apply non_edges_two_nodes in Hne.
    destruct (sample2_some (nodes g) d Hne) as (u & v & Hdraw). rewrite Hdraw.
    destruct (negb (has_edge g u v) && (manhattan u v >? 1)) eqn:Hacc.
    + apply andb_true_iff in Hacc. destruct Hacc as [Hno _].
      apply negb_true_iff in Hno.
      destruct (sample2_sound _ _ _ _ Hdraw) as [Hu Hv].
      rewrite (add_edge_new g u v Hu Hv Hno).
      apply (IH (mkGraph (nodes g) (edges g ++ [(u, v)]))).
    + apply IH.
Qed.

(** While an eligible pair is left whenever one is needed, some further
    choices of the generator finish the loop. *)
Lemma can_go_on_step (g : Graph) (added : Z) (u v : Node) :
  well_formed g = true -> can_go_on k g added ->
  can_go_on k (mkGraph (nodes g) (edges g ++ [(u, v)])) (added + 1).
Proof.
  intros Hwf [Hm|Hc].
  - left. destruct g as [ns es]. now apply mesh_like_app.
  - right. unfold well_formed in Hwf. rewrite !andb_true_iff in Hwf.
    destruct Hwf as [[Hn _] _]. apply distinct_nodes_spec in Hn.
    pose proof (eligible_count_snoc (nodes g) (edges g) (u, v) Hn) as Hstep.
    destruct g as [ns es]. simpl in *. lia.
Qed.

Lemma links_finish_now (n : nat) :
  forall (g : Graph) (added : Z),
    Z.to_nat (k - added) = n ->
    well_formed g = true -> can_go_on k g added ->
    exists more out, links_on_value more g (nodes g) added k = Returned out.
Proof.
  induction n as [|n IH]; intros g added Hn Hwf Hgo.
  - exists [], (g, []). simpl.
    replace (added <? k) with false by (symmetry; apply Z.ltb_ge; lia).
    reflexivity.
  - assert (Hlt : (added <? k) = true) by (apply Z.ltb_lt; lia).
    destruct (length (non_edges g) =? 0)%nat eqn:Hnone.
    { exists [], (g, []). simpl. now rewrite Hlt, Hnone. }
    assert (Hel : eligible_pairs g <> []).
    { destruct Hgo as [Hm|Hc].
      - rewrite (mesh_like_eligible g Hm). apply Nat.eqb_neq in Hnone.
        now rewrite <- length_zero_iff_nil.
      - intros Hnil. rewrite Hnil in Hc. simpl in Hc. lia. }
    destruct (eligible_pairs g) as [|[u v] ps] eqn:Hps; [congruence|].
    assert (Hin : In (u, v) (eligible_pairs g)) by (rewrite Hps; left; reflexivity).
    apply eligible_pair_found in Hin.
    destruct Hin as (Hu & Hv & Hne & Hno & Hfar).
    destruct (sample2_reaches (nodes g) u v Hu Hv Hne) as [d Hdraw].
    destruct (IH (mkGraph (nodes g) (edges g ++ [(u, v)])) (added + 1))
      as (more & out & Hrun).
    + lia.
    + now apply well_formed_snoc.
    + now apply can_go_on_step.
    + exists (d :: more), out. simpl. rewrite Hlt, Hnone, Hdraw, Hno, Hfar.
      simpl. rewrite (add_edge_new g u v Hu Hv Hno). exact Hrun.
Qed.

Lemma links_can_finish (rng : Rng) :
  forall (g : Graph) (added : Z),
    well_formed g = true -> can_go_on k g added ->
    exists more out,
      links_on_value (rng ++ more) g (nodes g) added k = Returned out.
Proof.
  induction rng as [|d rng IH]; intros g added Hwf Hgo.
  - simpl. now apply (links_finish_now (Z.to_nat (k - added))).
  - destruct (added <? k) eqn:Hlt.
    2:{ exists [], (g, (d :: rng) ++ []). simpl. now rewrite Hlt. }
    destruct (length (non_edges g) =? 0)%nat eqn:Hnone.
    { exists [], (g, (d :: rng) ++ []). simpl. now rewrite Hlt, Hnone. }
    apply Nat.eqb_neq in Hnone.
    assert (Hne : non_edges g <> []) by (now rewrite <- length_zero_iff_nil).
    apply non_edges_two_nodes in Hne.
    destruct (sample2_some (nodes g) d Hne) as (u & v & Hdraw).
    destruct (negb (has_edge g u v) && (manhattan u v >? 1)) eqn:Hacc.
    + pose proof Hacc as Hacc'.
      apply andb_true_iff in Hacc'. destruct Hacc' as [Hno _].
      apply negb_true_iff in Hno.
      destruct (sample2_sound _ _ _ _ Hdraw) as [Hu Hv].
      destruct (IH (mkGraph (nodes g) (edges g ++ [(u, v)])) (added + 1))
        as (more & out & Hrun).
      * now apply well_formed_snoc.
      * now apply can_go_on_step.
      * exists more, out. simpl. rewrite Hlt.
        replace (length (non_edges g) =? 0)%nat with false
          by (symmetry; apply Nat.eqb_neq; assumption).
        rewrite Hdraw, Hacc, (add_edge_new g u v Hu Hv Hno). exact Hrun.
    + destruct (IH g added Hwf Hgo) as (more & out & Hrun).
      exists more, out. simpl. rewrite Hlt.
      replace (length (non_edges g) =? 0)%nat with false
        by (symmetry; apply Nat.eqb_neq; assumption).
      rewrite Hdraw, Hacc. exact Hrun.
Qed.

End Loop.

(** *** The call *)

Lemma assign_last (st : Store) (x g : Graph) :
  assign (st ++ [x]) (length st) g = st ++ [g].
Proof. induction st as [|y st IH]; simpl; [reflexivity|]. now rewrite IH. Qed.

Lemma deref_last (st : Store) (g : Graph) : deref (st ++ [g]) (length st) = g.
Proof. unfold deref. now rewrite app_nth2, Nat.sub_diag by lia. Qed.

Lemma deref_before_last (st : Store) (g : Graph) (r : Ref) :
  (r < length st)%nat -> deref (st ++ [g]) r = deref st r.
Proof. intros Hr. unfold deref. now rewrite app_nth1. Qed.

(** The call copies the object of [graph] to a fresh one at the end of the
    store and runs the loop on the copy. *)
Lemma add_small_world_links_on_value (rng : Rng) (st : Store) (graph : Ref)
    (k : Z) :
  add_small_world_links rng st graph k
  = match links_on_value rng (deref st graph) (nodes (deref st graph)) 0 k with
    | Returned (g', rng') => Returned ((st ++ [g'], length st), rng')
    | Raised e => Raised e
    | Starved => Starved
    end.
Proof.
  unfold add_small_world_links, copy.
  rewrite links_loop_on_value by (rewrite length_app; simpl; lia).
  rewrite deref_last.
  destruct (links_on_value rng _ _ 0 k) as [[g' rng']| |]; try reflexivity.
  now rewrite assign_last.
Qed.

Lemma grid_mesh_like (m n : Z) : mesh_like (grid_2d_graph m n) = true.
Proof.
  unfold mesh_like. apply forallb_forall. intros [u v] Hp. simpl.
  destruct (Z.leb_spec (manhattan u v) 1) as [Hle|]; [|reflexivity]. simpl.
  pose proof (all_pairs_distinct _ _ _ (grid_nodes_NoDup m n) Hp) as Hne.
  apply in_all_pairs in Hp. destruct Hp as [Hu Hv].
  apply grid_has_edge. split; [exact Hu|]. split; [exact Hv|].
  assert (manhattan u v <> 0).
  { intros H0. apply Hne. destruct u as [a b], v as [c d].
    unfold manhattan in H0. simpl in H0. f_equal; lia. }
  unfold manhattan in *. lia.
Qed.

(** C4. For every well-formed topology and every count [k] that does not
    exceed the number of eligible pairs (no edge, Manhattan distance above
    1), a call of [add_small_world_links] that returns gives a new graph
    object with the same nodes whose edges are those of the input followed
    by exactly [k] new ones, each between nodes of the input more than one
    step apart that the input did not join, with no duplicate edge; the
    input object, like every object already in the store, is unchanged.  The
    call never raises, and whatever the generator has chosen so far, some
    further choices make it return. *)
Theorem add_small_world_links_adds (st : Store) (graph : Ref) (k : Z) :
  (graph < length st)%nat ->
  well_formed (deref st graph) = true ->
  0 <= k <= Z.of_nat (length (eligible_pairs (deref st graph))) ->
  (forall rng st' new_graph rng',
     add_small_world_links rng st graph k = Returned ((st', new_graph), rng') ->
     new_graph <> graph
     /\ (forall r, (r < length st)%nat -> deref st' r = deref st r)
     /\ nodes (deref st' new_graph) = nodes (deref st graph)
     /\ well_formed (deref st' new_graph) = true
     /\ exists new,
          edges (deref st' new_graph) = edges (deref st graph) ++ new
          /\ Z.of_nat (length new) = k
          /\ forall e, In e new ->
               has_edge (deref st graph) (fst e) (snd e) = false
               /\ manhattan (fst e) (snd e) > 1
               /\ In (fst e) (nodes (deref st graph))
               /\ In (snd e) (nodes (deref st graph)))
  /\ (forall rng e, add_small_world_links rng st graph k <> Raised e)
  /\ (forall rng, exists more out,
        add_small_world_links (rng ++ more) st graph k = Returned out).
Proof.
  intros Hgraph Hwf Hk. split; [|split].
  - intros rng st' new_graph rng'. rewrite add_small_world_links_on_value.
    destruct (links_on_value rng _ _ 0 k) as [[g' rng1]| |] eqn:Hrun;
      try discriminate.
    intros Heq. inversion Heq; subst; clear Heq.
    destruct (links_on_value_spec k rng _ 0 g' rng' Hwf Hrun)
      as (Hnodes & Hwf' & _ & new & Hedges & Hnew & Hcount & Hexit).
    rewrite deref_last.
    split; [lia|]. split; [intros r Hr; now apply deref_before_last|].
    split; [exact Hnodes|]. split; [exact Hwf'|].
    exists new. split; [exact Hedges|]. split; [|exact Hnew].
    destruct Hexit as [Hge|Hnone]; [lia|].
    apply eligible_in_non_edges in Hnone.
    unfold well_formed in Hwf. rewrite !andb_true_iff in Hwf.
    destruct Hwf as [[Hnd _] _]. apply distinct_nodes_spec in Hnd.
    pose proof (eligible_count_app (nodes (deref st graph)) new
                  (edges (deref st graph)) Hnd) as Hcnt.
    rewrite <- Hedges, <- Hnodes in Hcnt.
    replace (mkGraph (nodes g') (edges g')) with g' in Hcnt by (now destruct g').
    rewrite Hnone in Hcnt. simpl in Hcnt.
    replace (mkGraph (nodes g') (edges (deref st graph)))
      with (deref st graph) in Hcnt
      by (rewrite Hnodes; now destruct (deref st graph)).
    lia.
  - intros rng e. rewrite add_small_world_links_on_value.
    pose proof (links_on_value_no_raise k rng (deref st graph) 0) as Hno.
    destruct (links_on_value rng _ _ 0 k) as [[g' rng1]|e'|];
      try discriminate.
    exfalso. now apply (Hno e').
  - intros rng.
    destruct (links_can_finish k rng (deref st graph) 0 Hwf) as (more & out & Hrun).
    { right. lia. }
    exists more. rewrite add_small_world_links_on_value, Hrun.
    destruct out as [g' rng']. eauto.
Qed.

(** One shortcut asked for on the 2 x 2 mesh, whose two diagonals are
    eligible. *)
Lemma add_small_world_links_adds_witness :
  exists st' new_graph rng',
    add_small_world_links [(0, 2)%nat] [create_mesh_topology 2 2] 0%nat 1
    = Returned ((st', new_graph), rng')
    /\ deref st' 0%nat = create_mesh_topology 2 2
    /\ exists new,
         edges (deref st' new_graph) = edges (create_mesh_topology 2 2) ++ new
         /\ Z.of_nat (length new) = 1.
Proof.
  assert (Hrun : add_small_world_links [(0, 2)%nat] [create_mesh_topology 2 2]
                   0%nat 1
                 = Returned
                     (([create_mesh_topology 2 2;
                        mkGraph (nodes (create_mesh_topology 2 2))
                          (edges (create_mesh_topology 2 2) ++ [((0, 0), (1, 1))])],
                       1%nat), [])) by reflexivity.
  destruct (add_small_world_links_adds [create_mesh_topology 2 2] 0%nat 1)
    as (Hret & _).
  - simpl. lia.
  - reflexivity.
  - vm_compute. split; discriminate.
  - destruct (Hret _ _ _ _ Hrun) as (_ & Hold & _ & _ & new & Hedges & Hlen & _).
    eexists _, _, _. split; [exact Hrun|]. split.
    + apply Hold. simpl. lia.
    + exists new. split; [exact Hedges | exact Hlen].
Defined.

(** Two nodes one step apart with no edge between them: every draw is the
    pair of them, in one order or the other, and is rejected. *)
Lemma adjacent_pair_never_accepted (rng : Rng) :
  forall out,
    links_on_value rng (mkGraph [(0, 0); (0, 1)] []) [(0, 0); (0, 1)] 0 1
    <> Returned out.
Proof.
  induction rng as [|d rng IH]; intros out; [discriminate|].
  cbn [links_on_value]. change (0 <? 1) with true. cbv iota.
  change (Nat.eqb (length (non_edges (mkGraph [(0, 0); (0, 1)] []))) 0%nat)
    with false.
  cbv iota.
  match goal with
  | |- context [match ?draw with Some _ => _ | None => _ end] =>
      destruct draw as [[u v]|] eqn:Hdraw; [|discriminate]
  end.
  apply sample2_sound in Hdraw. simpl in Hdraw.
  destruct Hdraw as [[<-|[<-|[]]] [<-|[<-|[]]]]; apply IH.
Qed.

(** C5, as stated, fails: the guard of the loop tests whether any pair of
    nodes is left without an edge, not whether an eligible pair is left.  On
    the graph of two nodes one step apart and no edge, no eligible pair
    exists, the guard does not fire, and no sequence of choices of the
    generator makes the call return. *)
Lemma no_early_stop_without_eligible_pair :
  eligible_pairs (mkGraph [(0, 0); (0, 1)] []) = []
  /\ ~ exists rng out,
        add_small_world_links rng [mkGraph [(0, 0); (0, 1)] []] 0%nat 1
        = Returned out.
Proof.
  split; [reflexivity|]. intros (rng & out & Hrun).
  rewrite add_small_world_links_on_value in Hrun.
  change (deref [mkGraph [(0, 0); (0, 1)] []] 0%nat)
    with (mkGraph [(0, 0); (0, 1)] []) in Hrun.
  change (nodes (mkGraph [(0, 0); (0, 1)] [])) with [(0, 0); (0, 1)] in Hrun.
  destruct (links_on_value rng _ _ 0 1) as [[g' rng']| |] eqn:Hloop;
    try discriminate.
  now apply (adjacent_pair_never_accepted rng (g', rng')).
Qed.

(** C5 (amended).  [add_small_world_links] stops at once, without error,
    without drawing and with nothing added, when no pair of nodes of the
    topology is left without an edge.  On a mesh-like topology (every pair
    of nodes within one step joined, as in every mesh) that is exactly when
    no eligible pair is left; there the call never raises, it returns after
    some further choices of the generator whatever was chosen before, and
    when it returns it has added at most the requested count, and fewer
    only if no eligible pair remains.  The number of rejected draws before
    an accepted one is not bounded. *)
Theorem add_small_world_links_stops (st : Store) (graph : Ref) (k : Z) :
  (graph < length st)%nat ->
  well_formed (deref st graph) = true ->
  (non_edges (deref st graph) = [] ->
     forall rng,
       add_small_world_links rng st graph k
       = Returned ((st ++ [deref st graph], length st), rng))
  /\ (mesh_like (deref st graph) = true ->
       eligible_pairs (deref st graph) = non_edges (deref st graph)
       /\ (forall rng e, add_small_world_links rng st graph k <> Raised e)
       /\ (forall rng, exists more out,
             add_small_world_links (rng ++ more) st graph k = Returned out)
       /\ (forall rng st' new_graph rng',
             add_small_world_links rng st graph k
             = Returned ((st', new_graph), rng') ->
             exists new,
               edges (deref st' new_graph) = edges (deref st graph) ++ new
               /\ Z.of_nat (length new) <= Z.max 0 k
               /\ (Z.of_nat (length new) < k ->
                    eligible_pairs (deref st' new_graph) = [])))
  /\ (forall rows cols, mesh_like (create_mesh_topology rows cols) = true)
  /\ (forall n, add_small_world_links (repeat (0, 0)%nat n)
                  [create_mesh_topology 2 2] 0%nat 1 = Starved).
Proof.
  intros Hgraph Hwf. split; [|split; [|split]].
  - intros Hnone rng. rewrite add_small_world_links_on_value.
    destruct rng as [|d rng]; simpl; rewrite Hnone; simpl;
      destruct (0 <? k); reflexivity.
  - intros Hmesh. split; [now apply mesh_like_eligible|]. split; [|split].
    + intros rng e. rewrite add_small_world_links_on_value.
      pose proof (links_on_value_no_raise k rng (deref st graph) 0) as Hno.
      destruct (links_on_value rng _ _ 0 k) as [[g' rng1]|e'|];
        try discriminate.
      exfalso. now apply (Hno e').
    + intros rng.
      destruct (links_can_finish k rng (deref st graph) 0 Hwf)
        as (more & out & Hrun); [now left|].
      exists more. rewrite add_small_world_links_on_value, Hrun.
      destruct out as [g' rng']. eauto.
    + intros rng st' new_graph rng'. rewrite add_small_world_links_on_value.
      destruct (links_on_value rng _ _ 0 k) as [[g' rng1]| |] eqn:Hrun;
        try discriminate.
      intros Heq. inversion Heq; subst; clear Heq.
      destruct (links_on_value_spec k rng _ 0 g' rng' Hwf Hrun)
        as (_ & _ & _ & new & Hedges & _ & Hcount & Hexit).
      rewrite deref_last. exists new. split; [exact Hedges|].
      split; [lia|]. intros Hfew.
      destruct Hexit as [Hge|Hnone]; [lia|].
      now apply eligible_in_non_edges.
  - intros rows cols. apply grid_mesh_like.
  - intros n. rewrite add_small_world_links_on_value.
    change (deref [create_mesh_topology 2 2] 0%nat)
      with (create_mesh_topology 2 2).
    induction n as [|n IH]; [reflexivity|].
    exact IH.
Qed.

(** The 1 x 2 mesh has its only pair of nodes joined: three shortcuts are
    asked for and none can be added. *)
Lemma add_small_world_links_stops_witness :
  add_small_world_links [(0, 1)%nat] [create_mesh_topology 1 2] 0%nat 3
  = Returned (([create_mesh_topology 1 2; create_mesh_topology 1 2], 1%nat),
              [(0, 1)%nat]).
Proof.
  refine (proj1 (add_small_world_links_stops [create_mesh_topology 1 2]
                   0%nat 3 _ _) _ [(0, 1)%nat]).
  - simpl. lia.
  - reflexivity.
  - reflexivity.
Defined.

End LinksFacts.


(** ** Shortest paths *)

Module PathFacts.
Import Dashboard GraphFacts.

Lemma seen_in_spec (seen : list Node) (v : Node) :
  seen_in seen v = true <-> In v seen.
Proof. apply mem_nodes. Qed.

Lemma in_neighbors (g : Graph) (u v : Node) :
  In v (neighbors g u) <-> In v (nodes g) /\ has_edge g u v = true.
Proof. unfold neighbors. apply filter_In. Qed.

Lemma walk_back_reach (g : Graph) (s : Node) (trail : list Node) :
  forall u, walk_back g s u trail = true -> reach g s (length trail) u.
Proof.
  induction trail as [|w rest IH]; intros u Hw; simpl in *.
  - apply node_eqb_eq in Hw. subst. constructor.
  - apply andb_true_iff in Hw. destruct Hw as [He Hw].
    eapply reach_step; [apply IH; exact Hw | exact He].
Qed.

(** One level of the search. *)
Lemma expand_spec (g : Graph) (frontier : list (Node * list Node)) :
  forall seen next seen',
    expand g frontier seen = (next, seen') ->
    seen' = seen ++ map fst next
    /\ (forall v tr, In (v, tr) next ->
          exists u trail, tr = u :: trail /\ In (u, trail) frontier
                          /\ has_edge g u v = true /\ In v (nodes g)
                          /\ ~ In v seen)
    /\ (forall u trail v, In (u, trail) frontier ->
          has_edge g u v = true -> In v (nodes g) -> In v seen')
    /\ (NoDup (nodes g) -> NoDup seen -> NoDup seen').
Proof.
  induction frontier as [|[u trail] rest IH]; intros seen next seen' Hexp.
  - simpl in Hexp. inversion Hexp; subst. rewrite app_nil_r.
    split; [reflexivity|]. split; [intros v tr []|].
    split; [intros u trail v []|auto].
  - simpl in Hexp.
    set (fresh := filter (fun v => negb (seen_in seen v)) (neighbors g u)) in *.
    destruct (expand g rest (seen ++ fresh)) as [more seen1] eqn:Hrest.
    inversion Hexp; subst; clear Hexp.
    destruct (IH _ _ _ Hrest) as (Hseen & Hnext & Hcover & Hnd).
    assert (Hfresh : forall v, In v fresh <->
              In v (nodes g) /\ has_edge g u v = true /\ ~ In v seen).
    { intros v. unfold fresh. rewrite filter_In, in_neighbors, negb_true_iff.
      rewrite <- not_true_iff_false, seen_in_spec. tauto. }
    split; [|split; [|split]].
    + rewrite Hseen, map_app, map_map. simpl. rewrite map_id.
      now rewrite app_assoc.
    + intros v tr Hin. apply in_app_or in Hin. destruct Hin as [Hin|Hin].
      * apply in_map_iff in Hin. destruct Hin as (v' & Heq & Hv').
        inversion Heq; subst. apply Hfresh in Hv'.
        exists u, trail. simpl. tauto.
      * destruct (Hnext v tr Hin) as (u' & trail' & -> & Hin' & He & Hv & Hns).
        exists u', trail'. repeat split; auto.
        -- right. exact Hin'.
        -- intros Hs. apply Hns. apply in_or_app. now left.
    + intros u' trail' v [Heq|Hin] He Hv.
      * inversion Heq; subst u' trail'. rewrite Hseen.
        destruct (seen_in seen v) eqn:Hs.
        -- apply seen_in_spec in Hs. apply in_or_app. left.
           apply in_or_app. now left.
        -- apply in_or_app. left. apply in_or_app. right. apply Hfresh.
           repeat split; auto.
           intros Hin. apply seen_in_spec in Hin. congruence.
      * eapply Hcover; eauto.
    + intros Hnodes Hnd0. apply Hnd; [assumption|].
      apply NoDup_app; [assumption| |].
      * unfold fresh, neighbors. now repeat apply NoDup_filter.
      * intros v Hv Hv'. apply Hfresh in Hv'. tauto.
Qed.

Lemma has_edge_nodes (g : Graph) (u v : Node) :
  well_formed g = true -> has_edge g u v = true ->
  In u (nodes g) /\ In v (nodes g).
Proof.
  unfold well_formed. rewrite !andb_true_iff. intros [[_ Hends] _] He.
  rewrite forallb_forall in Hends. apply has_edge_spec in He.
  destruct He as [Hin|Hin]; specialize (Hends _ Hin); simpl in Hends;
    apply andb_true_iff in Hends; rewrite !has_node_spec in Hends; tauto.
Qed.

Section Search.

Variable g : Graph.
Variable s t : Node.
Hypothesis g_wf : well_formed g = true.

Lemma nodes_NoDup : NoDup (nodes g).
Proof.
  unfold well_formed in g_wf. rewrite !andb_true_iff in g_wf.
  now apply distinct_nodes_spec.
Qed.

(** The search by levels: at level [k] the frontier holds walks of [k]
    edges, [seen] is the set of nodes within [k] edges of the source, every
    seen node outside the frontier is closer than [k], and the target is not
    closer than [k]. *)
Lemma bfs_by_levels (fuel : nat) :
  forall (frontier : list (Node * list Node)) (seen : list Node) (k : nat),
    (forall u trail, In (u, trail) frontier ->
       walk_back g s u trail = true /\ length trail = k) ->
    (forall v, In v seen <-> exists j, (j <= k)%nat /\ reach g s j v) ->
    (forall v, In v seen ->
       In v (map fst frontier) \/ exists j, (j < k)%nat /\ reach g s j v) ->
    (forall j, (j < k)%nat -> ~ reach g s j t) ->
    NoDup seen -> incl seen (nodes g) ->
    (length (nodes g) + 1 <= fuel + length seen)%nat ->
    match bfs fuel g frontier seen t with
    | Some path =>
        exists trail,
          path = rev (t :: trail) /\ walk_back g s t trail = true
          /\ forall n, reach g s n t -> (length trail <= n)%nat
    | None => forall n, ~ reach g s n t
    end.
Proof.
  induction fuel as [|fuel IH];
    intros frontier seen k Hwalks Hball Hrim Hfar Hnd Hincl Hfuel.
  - exfalso. pose proof (NoDup_incl_length Hnd Hincl). lia.
  - cbn [bfs].
    destruct (find (fun p => node_eqb (fst p) t) frontier) as [[u trail]|]
      eqn:Hfind.
    + apply find_some in Hfind. destruct Hfind as [Hin Heq]. simpl in Heq.
      apply node_eqb_eq in Heq. subst u.
      destruct (Hwalks _ _ Hin) as [Hw Hlen].
      exists trail. split; [reflexivity|]. split; [exact Hw|].
      intros n Hn. destruct (le_lt_dec (length trail) n) as [|Hlt]; [assumption|].
      exfalso. apply (Hfar n); [lia|assumption].
    + assert (Hnotin : ~ In t (map fst frontier)).
      { intros Hin. apply in_map_iff in Hin. destruct Hin as ([u tr] & Heq & Hin).
        simpl in Heq. subst u.
        pose proof (find_none _ _ Hfind _ Hin) as Hno. simpl in Hno.
        rewrite node_eqb_refl in Hno. discriminate. }
      assert (Hfar' : forall j, (j < Datatypes.S k)%nat -> ~ reach g s j t).
      { intros j Hj Hr. destruct (Nat.eq_dec j k) as [->|Hne].
        - assert (Hseen : In t seen) by (apply Hball; eauto).
          destruct (Hrim _ Hseen) as [Hin|(j' & Hj' & Hr')];
            [contradiction|]. now apply (Hfar j').
        - apply (Hfar j); [lia|assumption]. }
      destruct (expand g frontier seen) as [next seen'] eqn:Hexp.
      destruct (expand_spec _ _ _ _ _ Hexp) as (Hseen' & Hnext & Hcover & Hnd').
      assert (Hstep : forall u v, In u seen -> has_edge g u v = true ->
                In v seen').
      { intros u v Hu He.
        destruct (has_edge_nodes g u v g_wf He) as [_ Hv].
        destruct (Hrim _ Hu) as [Hin|(j & Hj & Hr)].
        - apply in_map_iff in Hin. destruct Hin as ([u' tr] & Heq & Hin).
          simpl in Heq. subst u'. eapply Hcover; eauto.
        - rewrite Hseen'. apply in_or_app. left. apply Hball.
          exists (Datatypes.S j). split; [lia|]. econstructor; eauto. }
      destruct next as [|entry next].
      * simpl in Hseen'. rewrite app_nil_r in Hseen'. subst seen'.
        assert (Hclosed : forall n v, reach g s n v -> In v seen).
        { intros n v Hr. induction Hr as [|n u v Hr IHr He].
          - apply Hball. exists 0%nat. split; [lia|constructor].
          - eapply Hstep; eauto. }
        intros n Hr. apply Hclosed in Hr. apply Hball in Hr.
        destruct Hr as (j & Hj & Hr). apply (Hfar' j); [lia|assumption].
      * remember (entry :: next) as level eqn:Hlevel.
        assert (Hwalks' : forall u trail, In (u, trail) level ->
                  walk_back g s u trail = true
                  /\ length trail = Datatypes.S k).
        { intros v tr Hin.
          destruct (Hnext _ _ Hin) as (u & trail & -> & Hin' & He & _).
          destruct (Hwalks _ _ Hin') as [Hw Hlen]. simpl.
          rewrite He, Hw, Hlen. auto. }
        apply (IH level seen' (Datatypes.S k)).
        -- exact Hwalks'.
        -- intros v. split.
           ++ rewrite Hseen'. intros Hin. apply in_app_or in Hin.
              destruct Hin as [Hin|Hin].
              ** apply Hball in Hin. destruct Hin as (j & Hj & Hr).
                 exists j. split; [lia|assumption].
              ** apply in_map_iff in Hin. destruct Hin as ([v' tr] & Heq & Hin).
                 simpl in Heq. subst v'.
                 destruct (Hwalks' _ _ Hin) as [Hw Hlen].
                 exists (Datatypes.S k). split; [lia|].
                 rewrite <- Hlen. now apply walk_back_reach.
           ++ intros (j & Hj & Hr). destruct (Nat.eq_dec j (Datatypes.S k))
                as [->|Hne].
              ** inversion Hr as [|n u v' Hr' He]; subst.
                 eapply Hstep; [|exact He]. apply Hball. eauto.
              ** rewrite Hseen'. apply in_or_app. left. apply Hball.
                 exists j. split; [lia|assumption].
        -- intros v. rewrite Hseen'. intros Hin. apply in_app_or in Hin.
           destruct Hin as [Hin|Hin]; [|now left].
           right. apply Hball in Hin. destruct Hin as (j & Hj & Hr).
           exists j. split; [lia|assumption].
        -- exact Hfar'.
        -- apply Hnd'; [apply nodes_NoDup|assumption].
        -- rewrite Hseen'. intros v Hin. apply in_app_or in Hin.
           destruct Hin as [Hin|Hin]; [now apply Hincl|].
           apply in_map_iff in Hin. destruct Hin as ([v' tr] & Heq & Hin).
           simpl in Heq. subst v'.
           destruct (Hnext _ _ Hin) as (u & trail & _ & _ & _ & Hv & _).
           exact Hv.
        -- rewrite Hseen', length_app, length_map, Hlevel. simpl. lia.
Qed.

(** [shortest_path] returns a walk from [s] to [t] with the fewest edges,
    raises [NetworkXNoPath] only when no walk leads from [s] to [t], and
    [NodeNotFound] only when [s] or [t] is not a node. *)
Lemma shortest_path_minimal :
  match shortest_path g s t with
  | Ok path =>
      exists trail,
        path = rev (t :: trail) /\ walk_back g s t trail = true
        /\ reach g s (length trail) t
        /\ forall n, reach g s n t -> (length trail <= n)%nat
  | Err NetworkXNoPath =>
      In s (nodes g) /\ In t (nodes g) /\ forall n, ~ reach g s n t
  | Err NodeNotFound => ~ In s (nodes g) \/ ~ In t (nodes g)
  | Err ValueError => False
  end.
Proof.
  unfold shortest_path.
  destruct (has_node g s) eqn:Hs.
  2:{ simpl. left. rewrite <- has_node_spec. congruence. }
  destruct (has_node g t) eqn:Ht.
  2:{ simpl. right. rewrite <- has_node_spec. congruence. }
  simpl. apply has_node_spec in Hs, Ht.
  pose proof (bfs_by_levels (length (nodes g)) [(s, [])] [s] 0) as Hbfs.
  destruct (bfs (length (nodes g)) g [(s, [])] [s] t) as [path|].
  - destruct Hbfs as (trail & Hpath & Hw & Hmin).
    + intros u trail [Heq|[]]. inversion Heq; subst. simpl.
      now rewrite node_eqb_refl.
    + intros v. split.
      * intros [<-|[]]. exists 0%nat. split; [lia|constructor].
      * intros (j & Hj & Hr). assert (j = 0%nat) as -> by lia.
        inversion Hr. now left.
    + intros v [<-|[]]. left. simpl. now left.
    + intros j Hj. lia.
    + constructor; [intros []|constructor].
    + intros v [<-|[]]. exact Hs.
    + simpl. lia.
    + exists trail. split; [exact Hpath|]. split; [exact Hw|].
      split; [now apply walk_back_reach|exact Hmin].
  - split; [exact Hs|]. split; [exact Ht|]. apply Hbfs.
    + intros u trail [Heq|[]]. inversion Heq; subst. simpl.
      now rewrite node_eqb_refl.
    + intros v. split.
      * intros [<-|[]]. exists 0%nat. split; [lia|constructor].
      * intros (j & Hj & Hr). assert (j = 0%nat) as -> by lia.
        inversion Hr. now left.
    + intros v [<-|[]]. left. simpl. now left.
    + intros j Hj. lia.
    + constructor; [intros []|constructor].
    + intros v [<-|[]]. exact Hs.
    + simpl. lia.
Qed.

End Search.

(** The hop count of a delivered packet is the length of a shortest walk
    between its endpoints. *)
Lemma hops_is_distance (g : Graph) (p : Packet) (n : Z) :
  well_formed g = true -> hops g p = Some n ->
  exists m,
    n = Z.of_nat m
    /\ reach g (source p) m (destination p)
    /\ forall m', reach g (source p) m' (destination p) -> (m <= m')%nat.
Proof.
  intros Hwf. unfold hops.
  pose proof (shortest_path_minimal g (source p) (destination p) Hwf) as Hsp.
  destruct (shortest_path g (source p) (destination p)) as [path|e];
    [|discriminate].
  destruct Hsp as (trail & -> & _ & Hreach & Hmin).
  intros Heq. inversion Heq; subst; clear Heq.
  exists (length trail). split; [|split; assumption].
  simpl. rewrite length_app, length_rev. simpl. lia.
Qed.

End PathFacts.

(** ** Workloads and simulation *)

Module DashboardFacts.
Import Dashboard PathFacts.

Lemma sample2_short {A} (population : list A) (d : Draw) :
  (length population < 2)%nat -> sample2 population d = None.
Proof.
  destruct population as [|x [|y rest]]; simpl; intros Hlen; try reflexivity; lia.
Qed.

Lemma random_sample_short {A} (population : list A) (rng : Rng) :
  (length population < 2)%nat -> random_sample population rng = Raised ValueError.
Proof.
  intros Hlen. destruct rng as [|d rng]; simpl.
  - destruct population as [|x [|y rest]]; simpl in *; try reflexivity; lia.
  - now rewrite sample2_short.
Qed.

Lemma range_nonpos (n : Z) : n <= 0 -> range n = [].
Proof. intros Hn. unfold range. now replace (Z.to_nat n) with 0%nat by lia. Qed.

Lemma range_pos_head (n : Z) : 1 <= n -> exists rest, range n = 0 :: rest.
Proof.
  intros Hn. unfold range. destruct (Z.to_nat n) as [|k] eqn:Hk; [lia|].
  simpl. eauto.
Qed.

(** C8, as stated, fails for a requested count of zero: the loop body, and
    with it [random.sample], never runs, and the empty workload is returned
    even for an empty node set. *)
Lemma no_error_for_zero_packets :
  generate_workload [] 0 [] = Returned ([], []).
Proof. reflexivity. Qed.

(** C8 (amended). For every requested packet count of at least one,
    [generate_workload] fails with the [ValueError] of [random.sample]
    whenever the node set has fewer than two elements, whatever the state of
    the generator, and no workload is produced; for a count of zero (or
    less) it returns the empty workload without drawing. *)
Theorem generate_workload_needs_two_nodes
    (rng : Rng) (num_packets : Z) (nodes : list Node) :
  (1 <= num_packets -> (length nodes < 2)%nat ->
     generate_workload rng num_packets nodes = Raised ValueError)
  /\ (num_packets <= 0 ->
     generate_workload rng num_packets nodes = Returned ([], rng)).
Proof.
  unfold generate_workload. split.
  - intros Hn Hlen. destruct (range_pos_head num_packets Hn) as [rest ->].
    simpl. now rewrite random_sample_short.
  - intros Hn. now rewrite range_nonpos.
Qed.

(** Three packets requested over a single node. *)
Lemma generate_workload_needs_two_nodes_witness :
  generate_workload [(0, 1)%nat] 3 [(0, 0)] = Raised ValueError.
Proof.
  apply (proj1 (generate_workload_needs_two_nodes [(0, 1)%nat] 3 [(0, 0)])).
  - lia.
  - simpl. lia.
Defined.

(** *** The simulation loop *)

Lemma after_loop_nil (lat : Z) (st : SimState) : after_loop lat st [] = st.
Proof.
  destruct st as [rs t n]. unfold after_loop. simpl.
  now rewrite app_nil_r, Z.add_0_r.
Qed.

Lemma after_loop_app (lat : Z) (st : SimState) (ds1 ds2 : list (Packet * Z)) :
  after_loop lat st (ds1 ++ ds2) = after_loop lat (after_loop lat st ds1) ds2.
Proof.
  unfold after_loop. simpl.
  rewrite map_app, app_assoc, fold_left_app, length_app, Nat2Z.inj_add.
  f_equal. lia.
Qed.

Lemma simulate_step_spec (g : Graph) (lat : Z) (st st' : SimState)
    (p p' : Packet) :
  simulate_step g lat st p = Ok (st', p') ->
  p' = p
  /\ st' = after_loop lat st (match hops g p with
                              | Some n => [(p, n)]
                              | None => []
                              end).
Proof.
  unfold simulate_step, hops.
  destruct (shortest_path g (source p) (destination p)) as [path|[]];
    intros Hstep; inversion Hstep; subst; clear Hstep.
  - split; [reflexivity|]. unfold after_loop, row_of. simpl. reflexivity.
  - split; [reflexivity|]. now rewrite after_loop_nil.
Qed.

(** A run that completes leaves the packets as they were and accumulates
    exactly the delivered ones. *)
Lemma simulate_loop_spec (g : Graph) (lat : Z) (workload : list Packet) :
  forall st st' workload',
    simulate_loop g lat st workload = Ok (st', workload') ->
    workload' = workload /\ st' = after_loop lat st (delivered g workload).
Proof.
  induction workload as [|p rest IH]; intros st st' workload' Hrun.
  - simpl in Hrun. inversion Hrun; subst. simpl.
    now rewrite after_loop_nil.
  - simpl in Hrun.
    destruct (simulate_step g lat st p) as [[st1 p1]|e] eqn:Hstep; [|discriminate].
    destruct (simulate_loop g lat st1 rest) as [[st2 rest2]|e] eqn:Hrest;
      [|discriminate].
    inversion Hrun; subst; clear Hrun.
    apply simulate_step_spec in Hstep. destruct Hstep as [-> ->].
    apply IH in Hrest. destruct Hrest as [-> ->].
    split; [reflexivity|].
    unfold delivered. simpl. fold (delivered g rest).
    now rewrite after_loop_app.
Qed.

Lemma shortest_path_known_nodes (g : Graph) (s t : Node) :
  has_node g s = true -> has_node g t = true ->
  (exists path, shortest_path g s t = Ok path)
  \/ shortest_path g s t = Err NetworkXNoPath.
Proof.
  intros Hs Ht. unfold shortest_path. rewrite Hs, Ht. simpl.
  destruct (bfs _ _ _ _ _); eauto.
Qed.

(** With every endpoint in the topology the run completes. *)
Lemma simulate_loop_completes (g : Graph) (lat : Z) (workload : list Packet) :
  endpoints_in g workload = true ->
  forall st, exists st' workload',
    simulate_loop g lat st workload = Ok (st', workload').
Proof.
  induction workload as [|p rest IH]; intros Hin st.
  - simpl. eauto.
  - simpl in Hin. apply andb_true_iff in Hin. destruct Hin as [Hp Hrest].
    apply andb_true_iff in Hp. destruct Hp as [Hs Ht].
    simpl. unfold simulate_step.
    destruct (shortest_path_known_nodes g _ _ Hs Ht) as [[path ->]| ->].
    + destruct (IH Hrest (mkSim
        (results st ++ [mkRow (id p) ((Z.of_nat (length path) - 1) * lat)
                              (Z.of_nat (length path) - 1)])
        (Z.max (simulation_end_time st)
               (start_time p + (Z.of_nat (length path) - 1) * lat))
        (packets_delivered st + 1))) as (st' & wl' & ->).
      eauto.
    + destruct (IH Hrest st) as (st' & wl' & ->). eauto.
Qed.

Lemma sum_latency_rows (lat : Z) (ds : list (Packet * Z)) :
  sum_latency (map (row_of lat) ds)
  = fold_left Z.add (map (fun d => snd d * lat) ds) 0.
Proof.
  unfold sum_latency. generalize 0.
  induction ds as [|d ds IH]; intros acc; [reflexivity|].
  simpl. apply IH.
Qed.

Lemma summarize_average (name : string) (lat : Z) (ds : list (Packet * Z)) :
  average_latency (summarize name (after_loop lat (mkSim [] 0 0) ds))
  = mean (map (fun d => snd d * lat) ds).
Proof.
  unfold summarize, after_loop, mean. simpl.
  destruct ds as [|d ds]; [reflexivity|].
  rewrite <- sum_latency_rows, !length_map. reflexivity.
Qed.


Lemma generated_packets_fresh (idxs : list Z) (nodes : list Node) :
  forall rng workload workload' rng',
    workload_loop idxs rng nodes workload = Returned (workload', rng') ->
    Forall (fun p => end_time p = 0 /\ hop_count p = 0) workload ->
    Forall (fun p => end_time p = 0 /\ hop_count p = 0) workload'.
Proof.
  induction idxs as [|i rest IH]; intros rng workload workload' rng' Hrun Hall.
  - simpl in Hrun. now inversion Hrun; subst.
  - simpl in Hrun.
    destruct (random_sample nodes rng) as [[[src dst] rng1]|e|]; try discriminate.
    apply IH in Hrun; [exact Hrun|].
    apply Forall_app. split; [exact Hall|].
    constructor; [|constructor]. simpl. auto.
Qed.




(** C10, as stated, fails: the loop keeps the hop count and the end time
    in local variables and in [results], and assigns nothing to the packet.
    The packet below is delivered over three hops, and after the run its
    [hop_count] and [end_time] are still the [0] of [Packet.__init__]. *)
Lemma packet_fields_stay_zero :
  let topology := create_mesh_topology 3 4 in
  let packet := new_packet 0 (0, 0) (2, 1) 4 in
  exists summary rows packet',
    simulate_network topology [packet] 5 "mesh"
    = Ok ((summary, rows), [packet'])
    /\ hops topology packet = Some 3
    /\ hop_count packet' <> 3
    /\ end_time packet' <> start_time packet' + 3 * 5.
Proof.
  eexists _, _, _. split; [reflexivity|]. split; [reflexivity|].
  split; simpl; discriminate.
Qed.

(** C10 (amended). [simulate_network] does not mutate packets: after a run
    every packet is as it was before, and the hop count and the latency (hop
    count times latency per hop) of each delivered packet are recorded in
    [results], one entry per delivered packet in workload order.
    [generate_workload] creates every packet with [hop_count] and [end_time]
    equal to 0, so these fields are 0 throughout.  The recorded hop count is
    the shortest-path hop count: a walk of that many edges joins the
    endpoints in the topology and no walk has fewer. *)
Theorem simulate_network_keeps_packets :
  (forall topology workload latency_per_hop name summary rows workload',
     simulate_network topology workload latency_per_hop name
     = Ok ((summary, rows), workload') ->
     workload' = workload
     /\ rows = map (row_of latency_per_hop) (delivered topology workload))
  /\ (forall rng num_packets nodes workload rng',
       generate_workload rng num_packets nodes = Returned (workload, rng') ->
       Forall (fun p => end_time p = 0 /\ hop_count p = 0) workload)
  /\ (forall topology p n,
       well_formed topology = true -> hops topology p = Some n ->
       exists m,
         n = Z.of_nat m
         /\ reach topology (source p) m (destination p)
         /\ forall m', reach topology (source p) m' (destination p) ->
                       (m <= m')%nat).
Proof.
  split; [|split; [|exact hops_is_distance]].
  - intros topology workload lat name summary rows workload'.
    unfold simulate_network.
    destruct (simulate_loop topology lat (mkSim [] 0 0) workload)
      as [[st wl]|e] eqn:Hrun; [|discriminate].
    intros Heq. inversion Heq; subst; clear Heq.
    apply simulate_loop_spec in Hrun. destruct Hrun as [-> ->].
    split; reflexivity.
  - intros rng n nodes workload rng' Hgen.
    apply (generated_packets_fresh _ _ _ _ _ _ Hgen). constructor.
Qed.

(** The packet of the scenario after the run, and its entry in [results]. *)
Lemma simulate_network_keeps_packets_witness :
  let packet := new_packet 0 (0, 0) (2, 1) 4 in
  [packet] = [packet]
  /\ [mkRow 0 15 3] = map (row_of 5) (delivered (create_mesh_topology 3 4) [packet]).
Proof.
  intros packet.
  apply (proj1 simulate_network_keeps_packets (create_mesh_topology 3 4)
           [packet] 5 "mesh"%string
           (mkSummary "mesh" 15%Q (1000000000 # 19)) [mkRow 0 15 3] [packet]).
  reflexivity.
Defined.

End DashboardFacts.

(** ** Reproducibility *)

Module SeedFacts.
Import Dashboard LinksFacts.

(** A finished loop has used a prefix of the choices of the generator, and
    what follows that prefix does not matter. *)
Lemma links_on_value_frame (k : Z) (ns : list Node) (rng : Rng) :
  forall (g : Graph) (added : Z) (g' : Graph) (rest : Rng),
    links_on_value rng g ns added k = Returned (g', rest) ->
    exists used,
      rng = used ++ rest
      /\ forall rest', links_on_value (used ++ rest') g ns added k
                       = Returned (g', rest').
Proof.
  assert (Hstop : forall g added,
    (added <? k) = false \/ (length (non_edges g) =? 0)%nat = true ->
    forall rest', links_on_value rest' g ns added k = Returned (g, rest')).
  { intros g added Hcase rest'.
    destruct rest'; simpl; destruct (added <? k); try reflexivity;
      destruct Hcase as [Hk|Hn]; try discriminate; now rewrite Hn. }
  induction rng as [|d rng IH]; intros g added g' rest Hrun.
  - simpl in Hrun. destruct (added <? k) eqn:Hlt.
    + destruct (length (non_edges g) =? 0)%nat eqn:Hnone.
      * inversion Hrun; subst. exists []. split; [reflexivity|].
        intros rest'. apply Hstop. now right.
      * destruct ns as [|x [|y ns]]; discriminate.
    + inversion Hrun; subst. exists []. split; [reflexivity|].
      intros rest'. apply Hstop. now left.
  - simpl in Hrun. destruct (added <? k) eqn:Hlt.
    2:{ inversion Hrun; subst. exists []. split; [reflexivity|].
        intros rest'. apply Hstop. now left. }
    destruct (length (non_edges g) =? 0)%nat eqn:Hnone.
    { inversion Hrun; subst. exists []. split; [reflexivity|].
      intros rest'. apply Hstop. now right. }
    destruct (sample2 ns d) as [[u v]|] eqn:Hdraw; [|discriminate].
    destruct (negb (has_edge g u v) && (manhattan u v >? 1)) eqn:Hacc.
    + destruct (IH _ _ _ _ Hrun) as (used & -> & Hframe).
      exists (d :: used). split; [reflexivity|]. intros rest'.
      simpl. rewrite Hlt, Hnone, Hdraw, Hacc. apply Hframe.
    + destruct (IH _ _ _ _ Hrun) as (used & -> & Hframe).
      exists (d :: used). split; [reflexivity|]. intros rest'.
      simpl. rewrite Hlt, Hnone, Hdraw, Hacc. apply Hframe.
Qed.





End SeedFacts.

(** ** More on the routing table *)

Module TableMore.
Import Table TableFacts.

(** X1. For a positive width, the coordinates of an index of the [w] x [h]
    mesh lie in the mesh and give the index back as [y * w + x]; conversely
    every in-bounds [(x, y)] is the coordinates of the index [y * w + x],
    which is an index of the mesh. *)
Theorem id2coord_round_trip (w h : Z) :
  0 < w ->
  (forall i, in_grid w h i ->
     0 <= fst (id2coord w i) < w /\ 0 <= snd (id2coord w i) < h
     /\ snd (id2coord w i) * w + fst (id2coord w i) = i)
  /\ (forall x y, 0 <= x < w -> 0 <= y < h ->
       in_grid w h (y * w + x) /\ id2coord w (y * w + x) = (x, y)).
Proof.
  intros Hw. split.
  - intros i Hi. unfold in_grid in Hi.
    destruct (id2coord_decompose w Hw i) as [Hdec Hx]. simpl.
    split; [exact Hx|]. split; [|lia]. split.
    + apply Z.div_pos; lia.
    + apply Z.div_lt_upper_bound; lia.
  - intros x y Hx Hy. split.
    + unfold in_grid. nia.
    + replace (y * w + x) with (x + w * y) by lia. now apply id2coord_of.
Qed.

(** Node 19 of the 8 x 4 mesh is at column 3 of row 2. *)
Lemma id2coord_round_trip_witness :
  id2coord W (2 * W + 3) = (3, 2).
Proof.
  assert (Hw : 0 < W) by (unfold W; lia).
  apply (proj2 (id2coord_round_trip W H Hw) 3 2); unfold W, H; lia.
Defined.

(** X2. The dimension-order decision from [d] back to [s] is the opposite of
    the decision from [s] to [d]: East against West, South against North,
    Local against Local. *)
Theorem xy_next_hop_reverse (w s d : Z) :
  0 < w -> xy_next_hop w d s = opposite (xy_next_hop w s d).
Proof.
  intros Hw.
  destruct (id2coord_decompose w Hw s) as [Hs _].
  destruct (id2coord_decompose w Hw d) as [Hd _].
  unfold xy_next_hop, id2coord.
  destruct (Z.eqb_spec s d) as [->|Hne].
  { rewrite Z.eqb_refl. reflexivity. }
  destruct (Z.eqb_spec d s) as [->|_]; [contradiction|].
  destruct (Z.gtb_spec (d mod w) (s mod w)) as [Hgt|Hngt].
  { destruct (Z.gtb_spec (s mod w) (d mod w)); [lia|].
    destruct (Z.ltb_spec (s mod w) (d mod w)); [reflexivity|lia]. }
  destruct (Z.ltb_spec (d mod w) (s mod w)) as [Hlt|Hnlt].
  { destruct (Z.gtb_spec (s mod w) (d mod w)); [reflexivity|lia]. }
  destruct (Z.gtb_spec (s mod w) (d mod w)); [lia|].
  destruct (Z.ltb_spec (s mod w) (d mod w)); [lia|].
  assert (Hrow : d / w <> s / w) by (intros Heq; apply Hne; nia).
  destruct (Z.gtb_spec (d / w) (s / w)) as [Hgt|Hngt'].
  { destruct (Z.gtb_spec (s / w) (d / w)); [lia|reflexivity]. }
  { destruct (Z.gtb_spec (s / w) (d / w)); [reflexivity|lia]. }
Qed.

(** Cells [0][9] and [9][0] of the 8 x 4 mesh. *)
Lemma xy_next_hop_reverse_witness :
  xy_next_hop W 9 0 = opposite (xy_next_hop W 0 9).
Proof. apply xy_next_hop_reverse. unfold W. lia. Defined.

(** X3. Shortcuts are bidirectional for every map: the shortcut loop gives
    the same answer for [(s, d)] and for [(d, s)], so the two cells are
    either both the same shortcut port or both dimension-order ports. *)
Theorem shortcut_both_directions (w : Z) (ports : ShortcutMap) (s d : Z) :
  scan_shortcuts ports s d = scan_shortcuts ports d s
  /\ uses_xy (cell_decision w ports s d) = uses_xy (cell_decision w ports d s)
  /\ (uses_xy (cell_decision w ports s d) = false ->
      cell w ports d s = cell w ports s d).
Proof.
  assert (Hscan : scan_shortcuts ports s d = scan_shortcuts ports d s).
  { induction ports as [|[[a b] port] rest IH]; [reflexivity|].
    simpl. rewrite IH.
    replace (((d =? a) && (s =? b)) || ((d =? b) && (s =? a)))
      with (((s =? a) && (d =? b)) || ((s =? b) && (d =? a))); [reflexivity|].
    rewrite orb_comm, (andb_comm (d =? a)), (andb_comm (d =? b)).
    reflexivity. }
  split; [exact Hscan|].
  unfold cell, cell_decision. rewrite <- Hscan.
  destruct (scan_shortcuts ports s d); simpl; split; auto; discriminate.
Qed.

Lemma scan_shortcuts_none (ports : ShortcutMap) (s d : Z) :
  scan_shortcuts ports s d = None ->
  forall a b p, In ((a, b), p) ports -> same_pair (s, d) (a, b) = false.
Proof.
  rewrite (scan_shortcuts_matches ports).
  destruct (find _ ports) as [e|] eqn:Hfind; [discriminate|].
  intros _ a b p Hin. exact (find_none _ _ Hfind _ Hin).
Qed.

Lemma scan_shortcuts_some (ports : ShortcutMap) (s d p : Z) :
  scan_shortcuts ports s d = Some p ->
  exists a b, In ((a, b), p) ports /\ same_pair (s, d) (a, b) = true.
Proof.
  rewrite (scan_shortcuts_matches ports).
  destruct (find _ ports) as [[[a b] q]|] eqn:Hfind; [|discriminate].
  intros Heq. inversion Heq; subst. apply find_some in Hfind.
  exists a, b. exact Hfind.
Qed.

Lemma xy_next_hop_range (w s d : Z) : 0 <= xy_next_hop w s d <= 4.
Proof.
  unfold xy_next_hop, id2coord, L, E, WDIR, S, N.
  repeat match goal with
         | |- context [if ?c then _ else _] => destruct c
         end; lia.
Qed.

(** X4. Every cell of the table is produced in one of two ways: it is the
    port of an entry of the map that names the pair in one orientation, or
    no entry names the pair and the cell is the dimension-order decision, one
    of the direction ports 0 to 4.  The table never holds anything else. *)
Theorem table_entry_origin (w h : Z) (ports : ShortcutMap) (s d : Z) :
  in_grid w h s -> in_grid w h d ->
  (uses_xy (cell_decision w ports s d) = false
   /\ exists a b, In ((a, b), entry (routing_table w h ports) s d) ports
                  /\ same_pair (s, d) (a, b) = true)
  \/ (uses_xy (cell_decision w ports s d) = true
      /\ (forall a b p, In ((a, b), p) ports -> same_pair (s, d) (a, b) = false)
      /\ entry (routing_table w h ports) s d = xy_next_hop w s d
      /\ 0 <= entry (routing_table w h ports) s d <= 4).
Proof.
  intros Hs Hd. rewrite entry_routing_table by assumption.
  unfold cell, cell_decision.
  destruct (scan_shortcuts ports s d) as [p|] eqn:Hscan; simpl.
  - left. split; [reflexivity|]. now apply scan_shortcuts_some.
  - right. split; [reflexivity|]. split; [now apply scan_shortcuts_none|].
    split; [reflexivity|apply xy_next_hop_range].
Qed.

(** Cell [12][20] of the printed table is the port of the entry [(12, 20)]. *)
Lemma table_entry_origin_witness :
  uses_xy (cell_decision W shortcut_ports 12 20) = false
  \/ entry printed_table 12 20 = xy_next_hop W 12 20.
Proof.
  destruct (table_entry_origin W H shortcut_ports 12 20) as [[Hs _]|(_ & _ & Hxy & _)].
  - unfold in_grid, W, H. lia.
  - unfold in_grid, W, H. lia.
  - left. exact Hs.
  - right. exact Hxy.
Defined.

Section Order.

Variable w : Z.
Hypothesis w_pos : 0 < w.

Lemma walk_add (a : nat) : forall b s d,
  walk w (a + b) s d = walk w b (walk w a s d) d.
Proof. induction a as [|a IH]; intros b s d; simpl; [reflexivity|apply IH]. Qed.

Lemma walk_distance (d : Z) (k : nat) : forall s,
  (Z.of_nat k <= grid_distance w s d) ->
  grid_distance w (walk w k s d) d = grid_distance w s d - Z.of_nat k.
Proof.
  induction k as [|k IH]; intros s Hk.
  - simpl. lia.
  - assert (Hne : s <> d).
    { intros ->. pose proof (proj2 (grid_distance_zero w w_pos d d) eq_refl). lia. }
    destruct (move_closer w w_pos s d Hne) as (Hstep & _).
    cbn [walk]. rewrite IH by lia. lia.
Qed.

Lemma vertical_decision (p d : Z) :
  vertical (xy_next_hop w p d) = true <-> p <> d /\ p mod w = d mod w.
Proof.
  unfold xy_next_hop, id2coord, vertical, L, E, WDIR, S, N.
  destruct (Z.eqb_spec p d) as [->|Hne]; [simpl; split; [discriminate|tauto]|].
  destruct (Z.gtb_spec (d mod w) (p mod w)); [simpl; split; [discriminate|lia]|].
  destruct (Z.ltb_spec (d mod w) (p mod w)); [simpl; split; [discriminate|lia]|].
  destruct (d / w >? p / w); simpl; split; auto; intros _; split; auto; lia.
Qed.

(** X5. Dimension order: on the way from [s] to [d], once a decision is
    South or North every later decision before the arrival is South or
    North too, so all the steps along the row come before all the steps
    along the column. *)
Theorem x_resolved_before_y (s d : Z) (k j : nat) :
  (k <= j)%nat -> (Z.of_nat j < grid_distance w s d) ->
  vertical (xy_next_hop w (walk w k s d) d) = true ->
  vertical (xy_next_hop w (walk w j s d) d) = true.
Proof.
  intros Hkj Hj Hk.
  apply vertical_decision in Hk. destruct Hk as [_ Hcol].
  replace j with (k + (j - k))%nat by lia. rewrite walk_add.
  set (p := walk w k s d) in *.
  assert (Hp : grid_distance w p d = grid_distance w s d - Z.of_nat k)
    by (apply walk_distance; lia).
  pose proof (grid_distance_nonneg w p d) as Hnn.
  destruct (walk_by_distance w w_pos d (Z.to_nat (grid_distance w p d)) p)
    as (_ & _ & _ & Hin); [lia|].
  destruct (Hin (j - k)%nat) as [Hx _]; [lia|].
  apply vertical_decision. split; [|lia].
  intros Heq.
  assert (Hd : grid_distance w (walk w (j - k) p d) d
               = grid_distance w p d - Z.of_nat (j - k))
    by (apply walk_distance; lia).
  rewrite Heq in Hd.
  rewrite (proj2 (grid_distance_zero w w_pos d d) eq_refl) in Hd. lia.
Qed.

End Order.

(** From node 1 to node 30 of the 8 x 4 mesh: the sixth decision is South,
    and so is the eighth. *)
Lemma x_resolved_before_y_witness :
  vertical (xy_next_hop W (walk W 7 1 30) 30) = true.
Proof.
  apply (x_resolved_before_y W) with (k := 5%nat).
  - unfold W. lia.
  - lia.
  - vm_compute. reflexivity.
  - vm_compute. reflexivity.
Defined.

End TableMore.

(** ** More on shortest paths *)

Module PathMore.
Import Dashboard GraphFacts PathFacts.

Lemma is_walk_snoc (g : Graph) (path : list Node) (u v : Node) :
  is_walk g (path ++ [u]) = true -> has_edge g u v = true ->
  is_walk g ((path ++ [u]) ++ [v]) = true.
Proof.
  induction path as [|x path IH]; simpl; intros Hw He.
  - now rewrite He.
  - destruct (path ++ [u]) as [|y rest] eqn:Hrest.
    + destruct path; discriminate.
    + simpl in *. apply andb_true_iff in Hw. destruct Hw as [Hxy Hw].
      rewrite Hxy. simpl. now apply IH.
Qed.

(** A frontier entry read forwards is a path from the source. *)
Lemma walk_back_path (g : Graph) (s : Node) (trail : list Node) :
  forall u, walk_back g s u trail = true ->
    is_walk g (rev (u :: trail)) = true
    /\ hd_error (rev (u :: trail)) = Some s
    /\ last (rev (u :: trail)) s = u.
Proof.
  induction trail as [|w rest IH]; intros u Hw.
  - simpl in Hw. apply node_eqb_eq in Hw. subst. simpl. auto.
  - simpl in Hw. apply andb_true_iff in Hw. destruct Hw as [He Hw].
    destruct (IH w Hw) as (Hwalk & Hhd & Hlast).
    change (rev (u :: w :: rest)) with (rev (w :: rest) ++ [u]).
    split; [|split].
    + change (rev (w :: rest)) with (rev rest ++ [w]) in *.
      now apply is_walk_snoc.
    + destruct (rev (w :: rest)) as [|x xs]; [discriminate|exact Hhd].
    + apply last_last.
Qed.

(** X6. On a well-formed graph [shortest_path] returns a path that starts
    at [s], ends at [t], follows edges, and has the fewest edges of all
    walks from [s] to [t]; it raises [NetworkXNoPath] only when both are
    nodes and no walk joins them, [NodeNotFound] only when one of them is
    not a node, and nothing else. *)
Theorem shortest_path_is_shortest (g : Graph) (s t : Node) :
  well_formed g = true ->
  match shortest_path g s t with
  | Ok path =>
      hd_error path = Some s /\ last path s = t /\ is_walk g path = true
      /\ reach g s (length path - 1) t
      /\ forall n, reach g s n t -> (length path - 1 <= n)%nat
  | Err NetworkXNoPath =>
      In s (nodes g) /\ In t (nodes g) /\ forall n, ~ reach g s n t
  | Err NodeNotFound => ~ In s (nodes g) \/ ~ In t (nodes g)
  | Err ValueError => False
  end.
Proof.
  intros Hwf. pose proof (shortest_path_minimal g s t Hwf) as Hsp.
  destruct (shortest_path g s t) as [path|[]]; try exact Hsp.
  destruct Hsp as (trail & -> & Hw & Hreach & Hmin).
  destruct (walk_back_path g s trail t Hw) as (Hwalk & Hhd & Hlast).
  assert (Hlen : (length (rev (t :: trail)) - 1 = length trail)%nat).
  { rewrite length_rev. simpl. lia. }
  rewrite Hlen. auto.
Qed.

(** Across the 3 x 4 mesh from corner [(0, 0)] to [(2, 1)]: three edges. *)
Lemma shortest_path_is_shortest_witness :
  reach (create_mesh_topology 3 4) (0, 0) 3 (2, 1).
Proof.
  pose proof (shortest_path_is_shortest (create_mesh_topology 3 4)
                (0, 0) (2, 1) eq_refl) as Hsp.
  change (shortest_path (create_mesh_topology 3 4) (0, 0) (2, 1))
    with (@Ok (list Node) [(0, 0); (0, 1); (1, 1); (2, 1)]) in Hsp.
  exact (proj1 (proj2 (proj2 (proj2 Hsp)))).
Defined.

Lemma reach_prepend (g : Graph) (s u t : Node) (n : nat) :
  has_edge g s u = true -> reach g u n t -> reach g s (Datatypes.S n) t.
Proof.
  intros He Hr. induction Hr as [|n v x Hr IH Hvx].
  - eapply reach_step; [constructor|exact He].
  - eapply reach_step; [exact IH|exact Hvx].
Qed.

Lemma reach_sym (g : Graph) (s t : Node) (n : nat) :
  reach g s n t -> reach g t n s.
Proof.
  induction 1 as [|n u v Hr IH He]; [constructor|].
  apply reach_prepend with (u := u); [|exact IH].
  now rewrite has_edge_sym.
Qed.

(** X7. The graph is undirected: the shortest path from [t] to [s] has as
    many edges as the one from [s] to [t], and the two calls fail alike. *)
Theorem shortest_path_symmetric (g : Graph) (s t : Node) :
  well_formed g = true ->
  match shortest_path g s t, shortest_path g t s with
  | Ok there, Ok back => length there = length back
  | Err e, Err e' => e = e'
  | _, _ => False
  end.
Proof.
  intros Hwf.
  destruct (has_node g s && has_node g t) eqn:Hnodes.
  2:{ unfold shortest_path.
      replace (negb (has_node g s) || negb (has_node g t)) with true
        by (destruct (has_node g s), (has_node g t); simpl in *; congruence).
      replace (negb (has_node g t) || negb (has_node g s)) with true
        by (destruct (has_node g s), (has_node g t); simpl in *; congruence).
      reflexivity. }
  apply andb_true_iff in Hnodes. destruct Hnodes as [Hs Ht].
  pose proof (shortest_path_minimal g s t Hwf) as Hst.
  pose proof (shortest_path_minimal g t s Hwf) as Hts.
  destruct (DashboardFacts.shortest_path_known_nodes g s t Hs Ht)
    as [[there Hthere]|Hthere];
    destruct (DashboardFacts.shortest_path_known_nodes g t s Ht Hs)
      as [[back Hback]|Hback];
    rewrite Hthere in *; rewrite Hback in *.
  - destruct Hst as (tr1 & -> & _ & Hr1 & Hmin1).
    destruct Hts as (tr2 & -> & _ & Hr2 & Hmin2).
    pose proof (Hmin1 _ (reach_sym _ _ _ _ Hr2)).
    pose proof (Hmin2 _ (reach_sym _ _ _ _ Hr1)).
    rewrite !length_rev. simpl. lia.
  - destruct Hst as (tr1 & _ & _ & Hr1 & _). destruct Hts as (_ & _ & Hno).
    apply (Hno (length tr1)). now apply reach_sym.
  - destruct Hts as (tr2 & _ & _ & Hr2 & _). destruct Hst as (_ & _ & Hno).
    apply (Hno (length tr2)). now apply reach_sym.
  - reflexivity.
Qed.

(** Both ways between two corners of the 3 x 4 mesh. *)
Lemma shortest_path_symmetric_witness :
  length [(0, 0); (0, 1); (1, 1); (2, 1)]
  = length [(2, 1); (2, 0); (1, 0); (0, 0)].
Proof.
  exact (shortest_path_symmetric (create_mesh_topology 3 4) (0, 0) (2, 1)
           eq_refl).
Defined.

(** *** Distances on the mesh *)

Lemma mesh_reach_lower (m n : Z) (s v : Node) (k : nat) :
  reach (grid_2d_graph m n) s k v -> manhattan s v <= Z.of_nat k.
Proof.
  induction 1 as [|k u v Hr IH He].
  - unfold manhattan. lia.
  - apply grid_has_edge in He. destruct He as (_ & _ & Hone).
    unfold manhattan in *. lia.
Qed.

Lemma mesh_reach_upper (m n : Z) (s : Node) (k : nat) :
  In s (grid_nodes m n) ->
  forall t, In t (grid_nodes m n) -> manhattan s t = Z.of_nat k ->
            reach (grid_2d_graph m n) s k t.
Proof.
  intros Hs. induction k as [|k IH]; intros t Ht Hk.
  - assert (s = t) as ->; [|constructor].
    destruct s as [a b], t as [c d]. unfold manhattan in Hk. simpl in Hk.
    f_equal; lia.
  - apply in_grid_nodes in Hs as Hs'. apply in_grid_nodes in Ht as Ht'.
    destruct s as [a b], t as [c d]. unfold manhattan in Hk. simpl in *.
    assert (Hcase : c < a \/ a < c \/ (a = c /\ d < b) \/ (a = c /\ b < d))
      by lia.
    assert (Hvia : forall u, In u (grid_nodes m n) ->
              manhattan (a, b) u = Z.of_nat k -> manhattan u (c, d) = 1 ->
              reach (grid_2d_graph m n) (a, b) (Datatypes.S k) (c, d)).
    { intros u Hu Hdist Hone. apply reach_step with (u := u).
      - now apply IH.
      - apply grid_has_edge. auto. }
    destruct Hcase as [H|[H|[H|H]]].
    + apply (Hvia (c + 1, d)); [apply in_grid_nodes; simpl; lia| |];
        unfold manhattan; simpl; lia.
    + apply (Hvia (c - 1, d)); [apply in_grid_nodes; simpl; lia| |];
        unfold manhattan; simpl; lia.
    + apply (Hvia (c, d + 1)); [apply in_grid_nodes; simpl; lia| |];
        unfold manhattan; simpl; lia.
    + apply (Hvia (c, d - 1)); [apply in_grid_nodes; simpl; lia| |];
        unfold manhattan; simpl; lia.
Qed.

Lemma manhattan_nonneg (u v : Node) : 0 <= manhattan u v.
Proof. unfold manhattan. lia. Qed.

(** The hop count between two nodes of the mesh. *)
Lemma mesh_hops (m n : Z) (p : Packet) :
  In (source p) (grid_nodes m n) -> In (destination p) (grid_nodes m n) ->
  hops (grid_2d_graph m n) p = Some (manhattan (source p) (destination p)).
Proof.
  intros Hs Ht. unfold hops.
  pose proof (shortest_path_minimal _ (source p) (destination p)
                (grid_well_formed m n)) as Hsp.
  pose proof (manhattan_nonneg (source p) (destination p)) as Hnn.
  pose proof (mesh_reach_upper m n (source p)
                (Z.to_nat (manhattan (source p) (destination p))) Hs
                (destination p) Ht) as Hup.
  rewrite Z2Nat.id in Hup by assumption. specialize (Hup eq_refl).
  destruct (shortest_path (grid_2d_graph m n) (source p) (destination p))
    as [path|[]].
  - destruct Hsp as (trail & -> & _ & Hreach & Hmin).
    apply mesh_reach_lower in Hreach. specialize (Hmin _ Hup).
    f_equal. rewrite length_rev. cbn [length]. lia.
  - contradiction.
  - simpl in Hsp. tauto.
  - destruct Hsp as (_ & _ & Hno). exfalso. now apply (Hno _ Hup).
Qed.

(** X8. On a plain mesh every two nodes are joined by a path, and the
    shortest path between them has as many edges as their Manhattan
    distance: a packet between nodes of the mesh is always delivered, with
    that hop count. *)
Theorem mesh_hop_count_is_manhattan (rows cols : Z) (p : Packet) :
  In (source p) (nodes (create_mesh_topology rows cols)) ->
  In (destination p) (nodes (create_mesh_topology rows cols)) ->
  hops (create_mesh_topology rows cols) p
  = Some (manhattan (source p) (destination p))
  /\ exists path,
       shortest_path (create_mesh_topology rows cols) (source p) (destination p)
       = Ok path
       /\ Z.of_nat (length path) = manhattan (source p) (destination p) + 1.
Proof.
  intros Hs Ht. pose proof (mesh_hops rows cols p Hs Ht) as Hh.
  split; [exact Hh|]. unfold hops, create_mesh_topology in *.
  destruct (shortest_path (grid_2d_graph rows cols) (source p) (destination p))
    as [path|e]; [|discriminate].
  exists path. split; [reflexivity|]. inversion Hh. lia.
Qed.

(** The scenario of the specification: Manhattan distance 3 on a 3 x 4
    mesh. *)
Lemma mesh_hop_count_is_manhattan_witness :
  hops (create_mesh_topology 3 4) (new_packet 0 (0, 0) (2, 1) 0) = Some 3.
Proof.
  apply (proj1 (mesh_hop_count_is_manhattan 3 4 (new_packet 0 (0, 0) (2, 1) 0)
                  ltac:(simpl; tauto) ltac:(simpl; tauto))).
Defined.

(** *** More edges, shorter paths *)

Lemma reach_more_edges (g g' : Graph) (s t : Node) (n : nat) :
  (forall u v, has_edge g u v = true -> has_edge g' u v = true) ->
  reach g s n t -> reach g' s n t.
Proof.
  intros Hsub. induction 1 as [|n u v Hr IH He]; [constructor|].
  eapply reach_step; [exact IH|now apply Hsub].
Qed.

Lemma shortest_path_ok_nodes (g : Graph) (s t : Node) (path : list Node) :
  shortest_path g s t = Ok path ->
  has_node g s = true /\ has_node g t = true.
Proof.
  unfold shortest_path.
  destruct (has_node g s), (has_node g t); simpl; try discriminate. auto.
Qed.

Lemma hops_more_edges (g g' : Graph) (p : Packet) (n : Z) :
  well_formed g = true -> well_formed g' = true ->
  nodes g' = nodes g ->
  (forall u v, has_edge g u v = true -> has_edge g' u v = true) ->
  hops g p = Some n ->
  exists n', hops g' p = Some n' /\ 0 <= n' <= n.
Proof.
  intros Hwf Hwf' Hnodes Hsub. unfold hops.
  pose proof (shortest_path_minimal g (source p) (destination p) Hwf) as Hg.
  pose proof (shortest_path_minimal g' (source p) (destination p) Hwf') as Hg'.
  destruct (shortest_path g (source p) (destination p)) as [path|e] eqn:Hsp;
    [|discriminate].
  destruct (shortest_path_ok_nodes _ _ _ _ Hsp) as [Hs Ht].
  destruct Hg as (trail & -> & _ & Hreach & _).
  intros Heq. inversion Heq; subst; clear Heq.
  pose proof (reach_more_edges g g' _ _ _ Hsub Hreach) as Hreach'.
  assert (Hs' : has_node g' (source p) = true)
    by (unfold has_node in *; now rewrite Hnodes).
  assert (Ht' : has_node g' (destination p) = true)
    by (unfold has_node in *; now rewrite Hnodes).
  destruct (DashboardFacts.shortest_path_known_nodes g' _ _ Hs' Ht')
    as [[path' Hsp']|Hsp']; rewrite Hsp' in *.
  - destruct Hg' as (trail' & -> & _ & _ & Hmin).
    specialize (Hmin _ Hreach'). eexists. split; [reflexivity|].
    rewrite length_app, !length_rev. cbn [length]. lia.
  - destruct Hg' as (_ & _ & Hno). exfalso. now apply (Hno _ Hreach').
Qed.

(** X9. Shortcuts never lengthen a route: a packet delivered over the
    topology given to [add_small_world_links] is delivered over the topology
    it returns, in at most as many hops. *)
Theorem small_world_links_shorten (rng : Rng) (st : Store) (graph : Ref)
    (k : Z) (st' : Store) (new_graph : Ref) (rng' : Rng) (p : Packet) (n : Z) :
  well_formed (deref st graph) = true ->
  add_small_world_links rng st graph k = Returned ((st', new_graph), rng') ->
  hops (deref st graph) p = Some n ->
  exists n', hops (deref st' new_graph) p = Some n' /\ 0 <= n' <= n.
Proof.
  intros Hwf. rewrite LinksFacts.add_small_world_links_on_value.
  destruct (links_on_value rng _ _ 0 k) as [[g' rng1]| |] eqn:Hrun;
    try discriminate.
  intros Heq. inversion Heq; subst; clear Heq.
  destruct (LinksFacts.links_on_value_spec k rng _ 0 g' rng' Hwf Hrun)
    as (Hnodes & Hwf' & _ & new & Hedges & _).
  rewrite LinksFacts.deref_last.
  apply hops_more_edges; try assumption.
  intros u v He. unfold has_edge in *. rewrite Hedges, existsb_app, He.
  reflexivity.
Qed.

(** The diagonal of the 2 x 2 mesh takes two hops, and one after the
    shortcut along it is added. *)
Lemma small_world_links_shorten_witness :
  exists n',
    hops (mkGraph (nodes (create_mesh_topology 2 2))
                  (edges (create_mesh_topology 2 2) ++ [((0, 0), (1, 1))]))
         (new_packet 0 (0, 0) (1, 1) 0) = Some n'
    /\ 0 <= n' <= 2.
Proof.
  apply (small_world_links_shorten [(0, 2)%nat] [create_mesh_topology 2 2]
           0%nat 1
           [create_mesh_topology 2 2;
            mkGraph (nodes (create_mesh_topology 2 2))
                    (edges (create_mesh_topology 2 2) ++ [((0, 0), (1, 1))])]
           1%nat [] (new_packet 0 (0, 0) (1, 1) 0) 2);
    reflexivity.
Defined.

End PathMore.

(** ** More on workloads and runs *)

Module RunMore.
Import Dashboard GraphFacts LinksFacts PathFacts DashboardFacts PathMore.

Lemma nth_not_in_drop_nth {A} (xs : list A) :
  NoDup xs -> forall i d, (i < length xs)%nat ->
  ~ In (nth i xs d) (drop_nth i xs).
Proof.
  induction 1 as [|x xs Hx Hnd IH]; intros [|i] d Hi; simpl in *; try lia.
  - exact Hx.
  - intros [Heq|Hin].
    + apply Hx. rewrite Heq. apply nth_In. lia.
    + apply (IH i d); [lia|exact Hin].
Qed.

Lemma sample2_distinct {A} (xs : list A) (d : Draw) (u v : A) :
  NoDup xs -> sample2 xs d = Some (u, v) -> u <> v.
Proof.
  intros Hnd. destruct xs as [|x [|y rest]]; try discriminate.
  rewrite sample2_unfold. cbv zeta.
  assert (Hlen : (2 <= length (x :: y :: rest))%nat) by (simpl; lia).
  revert Hnd Hlen. generalize (x :: y :: rest). intros l Hnd Hlen Heq.
  injection Heq as <- <-.
  assert (Hi : (fst d mod length l < length l)%nat)
    by (apply Nat.mod_upper_bound; lia).
  intros Heq. apply (nth_not_in_drop_nth l Hnd (fst d mod length l)%nat x Hi).
  rewrite Heq. apply nth_In. rewrite length_drop_nth by exact Hi.
  replace (Nat.pred (length l)) with (length l - 1)%nat by lia.
  apply Nat.mod_upper_bound. lia.
Qed.

Lemma workload_loop_shape (ns : list Node) (idxs : list Z) :
  forall (rng : Rng) (acc workload : list Packet) (rng' : Rng),
    workload_loop idxs rng ns acc = Returned (workload, rng') ->
    exists new,
      workload = acc ++ new /\ map id new = idxs
      /\ Forall (fresh_packet ns) new
      /\ length rng = (length idxs + length rng')%nat.
Proof.
  induction idxs as [|i idxs IH]; intros rng acc workload rng' Hrun.
  - simpl in Hrun. inversion Hrun; subst. exists [].
    rewrite app_nil_r. repeat split; auto.
  - simpl in Hrun. destruct rng as [|d rng].
    { simpl in Hrun. destruct ns as [|x [|y ns]]; discriminate. }
    simpl in Hrun. destruct (sample2 ns d) as [[src dst]|] eqn:Hdraw;
      [|discriminate].
    destruct (IH _ _ _ _ Hrun) as (new & -> & Hids & Hall & Hlen).
    exists (new_packet i src dst (i * 2) :: new).
    split; [now rewrite <- app_assoc|]. split; [simpl; now rewrite Hids|].
    split; [|simpl; lia].
    constructor; [|exact Hall].
    destruct (sample2_sound _ _ _ _ Hdraw) as [Hs Ht].
    unfold fresh_packet. simpl. repeat split; auto.
    intros Hnd. now apply (sample2_distinct ns d).
Qed.

(** What a returned workload looks like. *)
Lemma generated_workload_facts (rng : Rng) (num_packets : Z)
    (ns : list Node) (workload : list Packet) (rng' : Rng) :
  generate_workload rng num_packets ns = Returned (workload, rng') ->
  map id workload = range num_packets
  /\ length workload = Z.to_nat num_packets
  /\ Forall (fresh_packet ns) workload
  /\ length rng = (length workload + length rng')%nat.
Proof.
  unfold generate_workload. intros Hrun.
  destruct (workload_loop_shape _ _ _ _ _ _ Hrun) as (new & -> & Hids & Hall & Hlen).
  simpl. assert (Hl : length new = Z.to_nat num_packets).
  { rewrite <- (length_map id), Hids. apply range_length. }
  repeat split; auto. now rewrite Hl, <- range_length.
Qed.

(** X10. A workload that [generate_workload] returns holds one packet per
    index of [range(num_packets)], in order, with that index as id and twice
    it as start time, both travel fields at 0, and source and destination
    two nodes of the given list, different ones when the list has no
    duplicate; the generator has made exactly one choice per packet. *)
Theorem generate_workload_shape (rng : Rng) (num_packets : Z)
    (ns : list Node) (workload : list Packet) (rng' : Rng) :
  generate_workload rng num_packets ns = Returned (workload, rng') ->
  map id workload = range num_packets
  /\ length workload = Z.to_nat num_packets
  /\ Forall (fresh_packet ns) workload
  /\ length rng = (length workload + length rng')%nat.
Proof.
  unfold generate_workload. intros Hrun.
  destruct (workload_loop_shape _ _ _ _ _ _ Hrun)
    as (new & Hnew & Hids & Hall & Hlen).
  rewrite app_nil_l in Hnew. subst new.
  split; [exact Hids|]. split; [|split; [exact Hall|]].
  - rewrite <- (length_map id), Hids. apply range_length.
  - rewrite Hlen. f_equal. now rewrite <- Hids, length_map.
Qed.

(** Two packets over the four nodes of the 2 x 2 mesh. *)
Lemma generate_workload_shape_witness :
  map id [new_packet 0 (0, 0) (1, 1) 0; new_packet 1 (0, 1) (1, 0) 2]
  = range 2.
Proof.
  apply (generate_workload_shape [(0, 2); (1, 1); (0, 1)]%nat 2
           (nodes (create_mesh_topology 2 2))
           [new_packet 0 (0, 0) (1, 1) 0; new_packet 1 (0, 1) (1, 0) 2]
           [(0, 1)%nat]).
  reflexivity.
Defined.

Lemma fresh_endpoints_in (g : Graph) (ns : list Node) (workload : list Packet) :
  nodes g = ns -> Forall (fresh_packet ns) workload ->
  endpoints_in g workload = true.
Proof.
  intros Hns Hall. unfold endpoints_in. apply forallb_forall. intros p Hp.
  rewrite Forall_forall in Hall. destruct (Hall p Hp) as (_ & _ & _ & Hs & Ht & _).
  rewrite andb_true_iff, !has_node_spec, Hns. auto.
Qed.




(** *** Averages *)

Lemma bfs_nonempty (fuel : nat) (g : Graph) (t : Node) :
  forall frontier seen path,
    bfs fuel g frontier seen t = Some path -> (1 <= length path)%nat.
Proof.
  induction fuel as [|fuel IH]; intros frontier seen path; cbn [bfs];
    destruct (find _ frontier) as [[u trail]|].
  - intros Heq. inversion Heq. rewrite ?length_app, ?length_rev. simpl. lia.
  - discriminate.
  - intros Heq. inversion Heq. rewrite ?length_app, ?length_rev. simpl. lia.
  - destruct (expand g frontier seen) as [[|e next] seen']; [discriminate|].
    apply IH.
Qed.

Lemma hops_nonneg (g : Graph) (p : Packet) (n : Z) :
  hops g p = Some n -> 0 <= n.
Proof.
  unfold hops, shortest_path.
  destruct (negb (has_node g (source p)) || negb (has_node g (destination p)));
    [discriminate|].
  destruct (bfs _ g _ _ _) as [path|] eqn:Hbfs; [|discriminate].
  apply bfs_nonempty in Hbfs. intros Heq. inversion Heq. lia.
Qed.

Lemma delivered_nonneg (g : Graph) (workload : list Packet) :
  Forall (fun d => 0 <= snd d) (delivered g workload).
Proof.
  unfold delivered. induction workload as [|p rest IH]; simpl; [constructor|].
  destruct (hops g p) as [n|] eqn:Hh; simpl; [|exact IH].
  constructor; [|exact IH]. simpl. now apply (hops_nonneg g p).
Qed.







(** *** The whole run *)

(** The stages of [run_simulation_for_size], one after the other. *)
Lemma run_stages (rng : Rng) (rows cols : Z) :
  run_simulation_for_size rng rows cols
  = match links_on_value rng (create_mesh_topology rows cols)
            (nodes (create_mesh_topology rows cols)) 0 (rows * cols / 4) with
    | Returned (g', rng1) =>
        match generate_workload rng1 (250 * (rows * cols))
                (nodes (create_mesh_topology rows cols)) with
        | Returned (workload, _) =>
            '(summary1, _, workload1) <-
               lift (simulate_network (create_mesh_topology rows cols) workload
                       LATENCY_PER_HOP_STANDARD "Regular Mesh") ;;
            '(summary2, _, workload2) <-
               lift (simulate_network g' workload1
                       LATENCY_PER_HOP_STANDARD "Small-World Mesh") ;;
            '(summary3, _, workload3) <-
               lift (simulate_network g' workload2
                       LATENCY_PER_HOP_OPTIMIZED "Small-World + Optimized Router") ;;
            Returned (mkRun (create_mesh_topology rows cols) g' workload3
                            [summary1; summary2; summary3])
        | Raised e => Raised e
        | Starved => Starved
        end
    | Raised e => Raised e
    | Starved => Starved
    end.
Proof.
  unfold run_simulation_for_size. rewrite add_small_world_links_on_value.
  change (deref [create_mesh_topology rows cols] 0%nat)
    with (create_mesh_topology rows cols).
  destruct (links_on_value rng _ _ 0 (rows * cols / 4)) as [[g' rng1]| |];
    reflexivity.
Qed.

Lemma simulate_network_fresh (g : Graph) (ns : list Node)
    (workload : list Packet) (lat : Z) (name : string) :
  nodes g = ns -> Forall (fresh_packet ns) workload ->
  simulate_network g workload lat name
  = Ok ((summarize name (after_loop lat (mkSim [] 0 0) (delivered g workload)),
         map (row_of lat) (delivered g workload)), workload).
Proof.
  intros Hns Hall. pose proof (fresh_endpoints_in g ns workload Hns Hall) as Hin.
  unfold simulate_network.
  destruct (simulate_loop_completes g lat workload Hin (mkSim [] 0 0))
    as (st' & workload' & Hrun).
  rewrite Hrun. apply simulate_loop_spec in Hrun. destruct Hrun as [-> ->].
  reflexivity.
Qed.

Lemma workload_loop_no_raise (ns : list Node) (idxs : list Z) :
  (2 <= length ns)%nat ->
  forall rng acc e, workload_loop idxs rng ns acc <> Raised e.
Proof.
  intros Hns. induction idxs as [|i idxs IH]; intros rng acc e; [discriminate|].
  simpl. destruct rng as [|d rng]; simpl.
  - destruct ns as [|x [|y ns]]; simpl in Hns; try lia. discriminate.
  - destruct (sample2_some ns d Hns) as (u & v & ->). apply IH.
Qed.

Lemma workload_loop_enough (ns : list Node) (idxs : list Z) :
  (2 <= length ns)%nat ->
  forall rng acc, (length idxs <= length rng)%nat ->
    exists workload rng',
      workload_loop idxs rng ns acc = Returned (workload, rng').
Proof.
  intros Hns. induction idxs as [|i idxs IH]; intros rng acc Hlen.
  - simpl. eauto.
  - destruct rng as [|d rng]; simpl in Hlen; [lia|].
    simpl. destruct (sample2_some ns d Hns) as (u & v & ->).
    apply IH. lia.
Qed.

Lemma mesh_two_nodes (rows cols : Z) :
  2 <= rows * cols -> 1 <= rows -> 1 <= cols ->
  (2 <= length (nodes (create_mesh_topology rows cols)))%nat.
Proof.
  intros Hn Hr Hc. simpl.
  rewrite grid_nodes_prod, length_map, length_prod, !range_length. nia.
Qed.

(** X13. For a grid of at least two nodes [run_simulation_for_size] never
    raises, and whatever the generator has chosen so far, some further
    choices make it return; for the grid of one node it raises the
    [ValueError] of [random.sample], whatever the generator. *)
Theorem run_simulation_outcomes (rows cols : Z) :
  1 <= rows -> 1 <= cols ->
  (rows * cols = 1 ->
     forall rng, run_simulation_for_size rng rows cols = Raised ValueError)
  /\ (2 <= rows * cols ->
       (forall rng e, run_simulation_for_size rng rows cols <> Raised e)
       /\ (forall rng, exists more r,
             run_simulation_for_size (rng ++ more) rows cols = Returned r)).
Proof.
  intros Hr Hc. split.
  - intros Hone rng. assert (rows = 1) as -> by nia. assert (cols = 1) as -> by nia.
    rewrite run_stages.
    replace (links_on_value rng (create_mesh_topology 1 1)
               (nodes (create_mesh_topology 1 1)) 0 (1 * 1 / 4))
      with (@Returned (Graph * Rng) (create_mesh_topology 1 1, rng))
      by (destruct rng; reflexivity).
    unfold generate_workload.
    destruct (range_pos_head (250 * (1 * 1))) as [rest ->]; [lia|].
    simpl. now rewrite random_sample_short by (simpl; lia).
  - intros Hn. pose proof (mesh_two_nodes rows cols Hn Hr Hc) as Hns.
    pose proof (grid_well_formed rows cols) as Hwf.
    assert (Hsim : forall g' workload,
      nodes g' = nodes (create_mesh_topology rows cols) ->
      Forall (fresh_packet (nodes (create_mesh_topology rows cols))) workload ->
      exists r,
        ('(summary1, _, workload1) <-
           lift (simulate_network (create_mesh_topology rows cols) workload
                   LATENCY_PER_HOP_STANDARD "Regular Mesh") ;;
         '(summary2, _, workload2) <-
           lift (simulate_network g' workload1
                   LATENCY_PER_HOP_STANDARD "Small-World Mesh") ;;
         '(summary3, _, workload3) <-
           lift (simulate_network g' workload2
                   LATENCY_PER_HOP_OPTIMIZED "Small-World + Optimized Router") ;;
         Returned (mkRun (create_mesh_topology rows cols) g' workload3
                         [summary1; summary2; summary3])) = Returned r).
    { intros g' workload Hnodes Hall.
      rewrite (simulate_network_fresh _ _ workload _ _ eq_refl Hall).
      cbn [lift bind].
      rewrite (simulate_network_fresh g' _ workload _ _ Hnodes Hall).
      cbn [lift bind].
      rewrite (simulate_network_fresh g' _ workload _ _ Hnodes Hall).
      cbn [lift bind]. eauto. }
    split.
    + intros rng e. rewrite run_stages.
      pose proof (links_on_value_no_raise (rows * cols / 4) rng
                    (create_mesh_topology rows cols) 0) as Hno.
      destruct (links_on_value rng _ _ 0 _) as [[g' rng1]|e'|] eqn:Hlinks;
        [|exfalso; now apply (Hno e')|discriminate].
      destruct (links_on_value_spec _ _ _ _ _ _ Hwf Hlinks) as (Hnodes & _).
      pose proof (workload_loop_no_raise _ (range (250 * (rows * cols))) Hns
                    rng1 []) as Hno'.
      unfold generate_workload in *.
      destruct (workload_loop _ rng1 _ []) as [[workload rng2]|e'|] eqn:Hgen;
        [|exfalso; now apply (Hno' e')|discriminate].
      destruct (generated_workload_facts _ _ _ _ _ Hgen) as (_ & _ & Hall & _).
      destruct (Hsim g' workload Hnodes Hall) as [r ->]. discriminate.
    + intros rng.
      destruct (links_can_finish (rows * cols / 4) rng
                  (create_mesh_topology rows cols) 0 Hwf)
        as (more1 & [g' rest] & Hlinks); [left; apply grid_mesh_like|].
      destruct (SeedFacts.links_on_value_frame _ _ _ _ _ _ _ Hlinks)
        as (used & Hused & Hframe).
      destruct (links_on_value_spec _ _ _ _ _ _ Hwf Hlinks) as (Hnodes & _).
      set (pad := repeat (0, 0)%nat (length (range (250 * (rows * cols))))).
      destruct (workload_loop_enough _ (range (250 * (rows * cols))) Hns
                  (rest ++ pad) [])
        as (workload & rng2 & Hgen).
      { rewrite length_app. unfold pad. rewrite repeat_length. lia. }
      pose proof Hgen as Hgen'.
      apply (generated_workload_facts (rest ++ pad)) in Hgen'.
      destruct Hgen' as (_ & _ & Hall & _).
      destruct (Hsim g' workload Hnodes Hall) as [r Hr'].
      exists (more1 ++ pad), r. rewrite run_stages.
      rewrite app_assoc, Hused, <- app_assoc, Hframe.
      unfold generate_workload. rewrite Hgen. exact Hr'.
Qed.

(** The 1 x 1 grid: 250 packets are asked for over a single node. *)
Lemma run_simulation_outcomes_witness :
  run_simulation_for_size [(0, 1)%nat] 1 1 = Raised ValueError.
Proof.
  assert (H1 : 1 <= 1) by lia.
  apply (proj1 (run_simulation_outcomes 1 1 H1 H1)). reflexivity.
Defined.

(** *** Comparing the three summaries *)

Lemma sum_le (ys xs : list Z) :
  Forall2 Z.le ys xs ->
  forall acc' acc, acc' <= acc ->
    fold_left Z.add ys acc' <= fold_left Z.add xs acc.
Proof.
  induction 1 as [|y x ys xs Hyx Hall IH]; intros acc' acc Hacc; [exact Hacc|].
  simpl. apply IH. lia.
Qed.

Lemma mean_le (ys xs : list Z) :
  Forall2 Z.le ys xs -> (mean ys <= mean xs)%Q.
Proof.
  intros Hall. pose proof (Forall2_length Hall) as Hlen.
  pose proof (sum_le ys xs Hall 0 0 (Z.le_refl 0)) as Hsum.
  unfold mean. destruct Hall as [|y x ys xs Hyx Hall]; [apply Qle_refl|].
  rewrite Hlen. unfold Qdiv. apply Qmult_le_compat_r.
  - rewrite <- Zle_Qle. exact Hsum.
  - apply Qinv_le_0_compat. rewrite <- (Zle_Qle 0). lia.
Qed.

Lemma delivered_pointwise (g g' : Graph) (workload : list Packet) :
  (forall p, In p workload ->
     exists n n', hops g p = Some n /\ hops g' p = Some n' /\ 0 <= n' <= n) ->
  Forall2 (fun d' d => fst d' = fst d /\ 0 <= snd d' <= snd d)
          (delivered g' workload) (delivered g workload).
Proof.
  unfold delivered. induction workload as [|p rest IH]; intros Hall;
    [constructor|].
  destruct (Hall p (or_introl eq_refl)) as (n & n' & Hn & Hn' & Hle).
  simpl. rewrite Hn, Hn'. simpl. constructor; [split; [reflexivity|exact Hle]|].
  apply IH. intros q Hq. apply Hall. now right.
Qed.

Lemma scaled_le (lat' lat : Z) (ds' ds : list (Packet * Z)) :
  0 <= lat' <= lat ->
  Forall2 (fun d' d => fst d' = fst d /\ 0 <= snd d' <= snd d) ds' ds ->
  Forall2 Z.le (map (fun d => snd d * lat') ds') (map (fun d => snd d * lat) ds).
Proof.
  intros Hlat. induction 1 as [|d' d ds' ds Hd Hall IH]; simpl; constructor;
    [nia|exact IH].
Qed.

Lemma nonneg_pointwise (ds : list (Packet * Z)) :
  Forall (fun d => 0 <= snd d) ds ->
  Forall2 (fun d' d => fst d' = fst d /\ 0 <= snd d' <= snd d) ds ds.
Proof.
  induction 1 as [|d ds Hd Hnn IH]; constructor;
    [split; [reflexivity|lia]|exact IH].
Qed.

(** X14. In every run that returns for a grid of at least one row and one
    column, the mesh is the plain mesh, the small-world topology has the
    same nodes, the workload has 250 packets per node, and the three
    summaries are ordered: the average latency on the small-world topology
    is at most the one on the mesh, and with the optimized router at most
    the one with the standard router. *)
Theorem run_summaries_ordered (rng : Rng) (rows cols : Z) (r : Run) :
  1 <= rows -> 1 <= cols ->
  run_simulation_for_size rng rows cols = Returned r ->
  mesh_topology r = create_mesh_topology rows cols
  /\ nodes (small_world_topology r) = nodes (create_mesh_topology rows cols)
  /\ well_formed (small_world_topology r) = true
  /\ Z.of_nat (length (run_workload r)) = 250 * (rows * cols)
  /\ exists s1 s2 s3,
       all_summaries r = [s1; s2; s3]
       /\ (average_latency s2 <= average_latency s1)%Q
       /\ (average_latency s3 <= average_latency s2)%Q.
Proof.
  intros Hr Hc. rewrite run_stages.
  pose proof (grid_well_formed rows cols) as Hwf.
  destruct (links_on_value rng _ _ 0 _) as [[g' rng1]| |] eqn:Hlinks;
    try discriminate.
  destruct (links_on_value_spec _ _ _ _ _ _ Hwf Hlinks)
    as (Hnodes & Hwf' & _ & new & Hedges & _).
  destruct (generate_workload rng1 _ _) as [[workload rng2]| |] eqn:Hgen;
    try discriminate.
  destruct (generated_workload_facts _ _ _ _ _ Hgen) as (_ & Hlen & Hall & _).
  rewrite (simulate_network_fresh _ _ workload _ _ eq_refl Hall). cbn [lift bind].
  rewrite (simulate_network_fresh g' _ workload _ _ Hnodes Hall). cbn [lift bind].
  rewrite (simulate_network_fresh g' _ workload _ _ Hnodes Hall). cbn [lift bind].
  intros Heq. inversion Heq; subst r; clear Heq. cbn [mesh_topology
    small_world_topology run_workload all_summaries].
  split; [reflexivity|]. split; [exact Hnodes|]. split; [exact Hwf'|].
  split; [rewrite Hlen; lia|].
  eexists _, _, _. split; [reflexivity|].
  rewrite !summarize_average.
  assert (Hpt : Forall2 (fun d' d => fst d' = fst d /\ 0 <= snd d' <= snd d)
                  (delivered g' workload)
                  (delivered (create_mesh_topology rows cols) workload)).
  { apply delivered_pointwise. intros p Hp.
    rewrite Forall_forall in Hall.
    destruct (Hall p Hp) as (_ & _ & _ & Hs & Ht & _).
    pose proof (mesh_hops rows cols p Hs Ht) as Hm.
    assert (Hsub : forall u v,
              has_edge (create_mesh_topology rows cols) u v = true ->
              has_edge g' u v = true).
    { intros u v He. unfold has_edge in *.
      rewrite Hedges, existsb_app.
      unfold create_mesh_topology in He. now rewrite He. }
    destruct (hops_more_edges (create_mesh_topology rows cols) g' p
                (manhattan (source p) (destination p))
                Hwf Hwf' Hnodes Hsub Hm) as (n' & Hn' & Hle).
    eauto. }
  assert (Hself : Forall2 (fun d' d => fst d' = fst d /\ 0 <= snd d' <= snd d)
                    (delivered g' workload) (delivered g' workload)).
  { apply nonneg_pointwise, delivered_nonneg. }
  split; apply mean_le, scaled_le; auto;
    unfold LATENCY_PER_HOP_STANDARD, LATENCY_PER_HOP_OPTIMIZED; lia.
Qed.

(** On the 1 x 2 mesh, with 500 packets between its two nodes. *)
Lemma run_summaries_ordered_witness :
  exists r,
    run_simulation_for_size (repeat (0, 0)%nat 500) 1 2 = Returned r
    /\ Z.of_nat (length (run_workload r)) = 250 * (1 * 2).
Proof.
  assert (H1 : 1 <= 1) by lia. assert (H2 : 1 <= 2) by lia.
  destruct (run_simulation_for_size (repeat (0, 0)%nat 500) 1 2) as [r| |] eqn:Hrun.
  - exists r. split; [reflexivity|].
    exact (proj1 (proj2 (proj2 (proj2
             (run_summaries_ordered _ 1 2 r H1 H2 Hrun))))).
  - exfalso. revert Hrun. vm_compute. discriminate.
  - exfalso. revert Hrun. vm_compute. discriminate.
Defined.







(** *** Which shortcut is added *)

Lemma all_pairs_complete {A} (xs : list A) (a b : A) :
  In a xs -> In b xs -> a <> b ->
  In (a, b) (all_pairs xs) \/ In (b, a) (all_pairs xs).
Proof.
  induction xs as [|x rest IH]; simpl; [tauto|].
  rewrite !in_app_iff, !in_map_iff.
  intros [->|Ha] [->|Hb] Hne.
  - contradiction.
  - left. left. eauto.
  - right. left. eauto.
  - destruct (IH Ha Hb Hne); auto.
Qed.

(** X16. Every eligible pair can become the next shortcut: for two nodes of
    the topology more than one step apart and not joined, some choice of the
    generator makes a call for one shortcut return the copy with exactly the
    edge between them appended. *)
Theorem any_eligible_pair_can_be_added (st : Store) (graph : Ref) (u v : Node) :
  In u (nodes (deref st graph)) -> In v (nodes (deref st graph)) ->
  eligible (deref st graph) u v = true ->
  exists d,
    add_small_world_links [d] st graph 1
    = Returned ((st ++ [mkGraph (nodes (deref st graph))
                                (edges (deref st graph) ++ [(u, v)])],
                 length st), []).
Proof.
  intros Hu Hv Hel. set (g := deref st graph) in *.
  pose proof Hel as Hel'. unfold eligible in Hel'.
  apply andb_true_iff in Hel'. destruct Hel' as [Hno Hfar].
  apply negb_true_iff in Hno.
  assert (Hne : u <> v).
  { intros ->. unfold manhattan in Hfar. rewrite !Z.sub_diag in Hfar.
    discriminate. }
  assert (Hnon : (length (non_edges g) =? 0)%nat = false).
  { apply Nat.eqb_neq. intros Hz. apply length_zero_iff_nil in Hz.
    assert (Hin : In (u, v) (non_edges g) \/ In (v, u) (non_edges g)).
    { unfold non_edges.
      destruct (all_pairs_complete (nodes g) u v Hu Hv Hne) as [Hp|Hp];
        [left|right]; apply filter_In; (split; [exact Hp|]); simpl.
      - now rewrite Hno.
      - now rewrite has_edge_sym, Hno. }
    rewrite Hz in Hin. destruct Hin as [[]|[]]. }
  destruct (sample2_reaches (nodes g) u v Hu Hv Hne) as [d Hdraw].
  exists d. rewrite add_small_world_links_on_value. fold g.
  cbn [links_on_value]. change (0 <? 1) with true. cbv iota.
  rewrite Hnon, Hdraw, Hno, Hfar. cbn [negb andb].
  rewrite (add_edge_new g u v Hu Hv Hno).
  destruct (0 + 1 <? 1) eqn:Hlt; [apply Z.ltb_lt in Hlt; lia|].
  reflexivity.
Qed.

(** The shortcut between [(0, 1)] and [(1, 0)] of the 2 x 2 mesh. *)
Lemma any_eligible_pair_can_be_added_witness :
  exists d,
    add_small_world_links [d] [create_mesh_topology 2 2] 0%nat 1
    = Returned (([create_mesh_topology 2 2] ++
                 [mkGraph (nodes (create_mesh_topology 2 2))
                          (edges (create_mesh_topology 2 2)
                           ++ [((0, 1), (1, 0))])],
                 1%nat), []).
Proof.
  apply (any_eligible_pair_can_be_added [create_mesh_topology 2 2] 0%nat
           (0, 1) (1, 0)).
  - simpl. tauto.
  - simpl. tauto.
  - reflexivity.
Defined.

End RunMore.
